(** * YuMi dual-arm driver: wire codec, arm sessions and coordinator

    A shallow embedding of [arcor2_yumi/object_types/yumi.py].  Python
    floats are IEEE binary64 numbers and are modelled by Rocq's primitive
    floats; Python integers are [Z]; strings are ASCII strings.  Code that
    talks to the controller is written in a state-and-exception monad over
    a [World] that holds the object store, the sockets, the motion mutex,
    the replies of the environment and the trace of observable events. *)

From Stdlib Require Import ZArith String Ascii List Floats Lia Permutation Sorted.
From stdpp Require Import base option list strings gmap.

Set Warnings "-inexact-float".
Local Open Scope Z_scope.

(** ** Python string primitives *)

Module PyStr.

(** Membership of a character in the argument of [str.rstrip]. *)
Fixpoint mem_char (a : ascii) (chars : string) : bool :=
  match chars with
  | EmptyString => false
  | String c t => Ascii.eqb a c || mem_char a t
  end.

(** [s.rstrip(chars)]: drop the longest suffix made of characters of
    [chars]. *)
Fixpoint rstrip (chars : string) (s : string) : string :=
  match s with
  | EmptyString => EmptyString
  | String a t =>
      match rstrip chars t with
      | EmptyString => if mem_char a chars then EmptyString else String a EmptyString
      | t' => String a t'
      end
  end.

Fixpoint lstrip (chars : string) (s : string) : string :=
  match s with
  | EmptyString => EmptyString
  | String a t => if mem_char a chars then lstrip chars t else s
  end.

(** ASCII characters for which [str.isspace] holds: TAB, LF, VT, FF, CR,
    FS, GS, RS, US and the space. *)
Definition is_space (a : ascii) : bool :=
  let n := nat_of_ascii a in
  ((9 <=? n)%nat && (n <=? 13)%nat) || ((28 <=? n)%nat && (n <=? 32)%nat).

Fixpoint lstrip_ws (s : string) : string :=
  match s with
  | EmptyString => EmptyString
  | String a t => if is_space a then lstrip_ws t else s
  end.

Fixpoint rstrip_ws (s : string) : string :=
  match s with
  | EmptyString => EmptyString
  | String a t =>
      match rstrip_ws t with
      | EmptyString => if is_space a then EmptyString else String a EmptyString
      | t' => String a t'
      end
  end.

Definition strip_ws (s : string) : string := rstrip_ws (lstrip_ws s).

(** [s.split(sep)] for a one-character separator: never empty, the empty
    string gives one empty part. *)
Fixpoint split_on (c : ascii) (s : string) : list string :=
  match s with
  | EmptyString => [EmptyString]
  | String a t =>
      if Ascii.eqb a c then EmptyString :: split_on c t
      else match split_on c t with
           | h :: r => String a h :: r
           | [] => [String a EmptyString]
           end
  end.

(** [s.split()]: maximal runs of non-space characters. *)
Fixpoint split_ws (s : string) : list string :=
  match s with
  | EmptyString => []
  | String a t =>
      if is_space a then split_ws t
      else match t with
           | EmptyString => [String a EmptyString]
           | String b _ =>
               if is_space b then String a EmptyString :: split_ws t
               else match split_ws t with
                    | h :: r => String a h :: r
                    | [] => [String a EmptyString]
                    end
           end
  end.

(** [sep.join(parts)]. *)
Fixpoint join (sep : string) (parts : list string) : string :=
  match parts with
  | [] => EmptyString
  | [p] => p
  | p :: rest => p +:+ sep +:+ join sep rest
  end.

Definition is_digit (a : ascii) : bool :=
  let n := nat_of_ascii a in (48 <=? n)%nat && (n <=? 57)%nat.

Definition digit_value (a : ascii) : Z := Z.of_nat (nat_of_ascii a) - 48.

(** Digits of an [int()] literal: at least one digit, single underscores
    allowed between two digits. *)
Fixpoint digits_value (acc : Z) (after_digit : bool) (s : string) : option Z :=
  match s with
  | EmptyString => if after_digit then Some acc else None
  | String a t =>
      if is_digit a then digits_value (10 * acc + digit_value a) true t
      else if Ascii.eqb a "_"%char && after_digit then
        match t with
        | String b _ => if is_digit b then digits_value acc false t else None
        | EmptyString => None
        end
      else None
  end.

(** [int(s)] in base ten on ASCII input: surrounding white space is
    ignored, one sign is allowed.  [None] stands for [ValueError]. *)
Definition py_int (s : string) : option Z :=
  match strip_ws s with
  | String "+" t => digits_value 0 false t
  | String "-" t => Z.opp <$> digits_value 0 false t
  | s' => digits_value 0 false s'
  end.

(** The value of a string of digits read after [acc]. *)
Fixpoint digits_only (acc : Z) (s : string) : option Z :=
  match s with
  | EmptyString => Some acc
  | String a t =>
      if is_digit a then digits_only (10 * acc + digit_value a) t else None
  end.

(** The number that a field of a wire body denotes: an optional minus
    sign, digits, and optionally a point and more digits.  The result
    [(n, k)] stands for [n / 10^k].  The reader of the fields runs on the
    controller and is no part of this code: this is the decimal reading
    that the round trip of the specification refers to. *)
Definition token_body (neg : bool) (body : string) : option (Z * nat) :=
  let signed (n : Z) := if neg then - n else n in
  match split_on "." body with
  | [ip] =>
      if String.eqb ip "" then None
      else n ← digits_only 0 ip; Some (signed n, O)
  | [ip; fp] =>
      if String.eqb ip "" then None
      else n ← digits_only 0 (ip +:+ fp); Some (signed n, String.length fp)
  | _ => None
  end.

Definition token_value (s : string) : option (Z * nat) :=
  match s with
  | String "-" t => token_body true t
  | _ => token_body false s
  end.

(** [s.endswith(suffix)]. *)
Definition endswith (s suffix : string) : bool :=
  let n := String.length s in
  let k := String.length suffix in
  (k <=? n)%nat && String.eqb (substring (n - k) k s) suffix.

End PyStr.

(** ** Python numbers *)

(** A number handed to [str.format]: an [int] or a [float]. *)
Inductive pynum :=
| PyInt (z : Z)
| PyFloat (f : float).

(** [RequestPacket] and [RawResponse] of the wire protocol. *)
Record RequestPacket := mkRequestPacket {
  req : string;
  timeout : float;
  return_res : bool }.

Record RawResponse := mkRawResponse {
  mirror_code : Z;
  res_code : Z;
  message : string }.

(** Exceptions that cross the functions of the driver.  [YuMiCommException]
    and [YuMiControlException] are subclasses of [YumiException];
    [ProgramStopped] is a subclass of [RwsException], which is not a
    [YumiException].  [Blocked] is not an exception: it stands for a thread
    that waits for ever on a lock that is held. *)
Inductive Exc :=
| YumiException (msg : string)
| YuMiCommException (msg : string)
| YuMiControlException (req_packet : RequestPacket) (res : RawResponse)
| RwsException (msg : string)
| ProgramStopped
| KinematicsException (msg : string)
| AssertionError
| IndexError
| ValueError (msg : string)
| OverflowError
| AttributeError
| KeyError
| OSError
| TimeoutError
| Blocked.

Definition is_YumiException (e : Exc) : bool :=
  match e with
  | YumiException _ | YuMiCommException _ | YuMiControlException _ _ => true
  | _ => false
  end.

Definition is_RwsException (e : Exc) : bool :=
  match e with
  | RwsException _ | ProgramStopped => true
  | _ => false
  end.

Definition is_ProgramStopped (e : Exc) : bool :=
  match e with
  | ProgramStopped => true
  | _ => false
  end.

Module PyNum.

(** [float(z)]: nearest binary64, [OverflowError] beyond the range. *)
Definition float_of_int (z : Z) : Exc + float :=
  match binary_normalize prec emax z 0 false with
  | S754_infinity _ => inl OverflowError
  | sf => inr (SF2Prim sf)
  end.

Definition to_float (x : pynum) : Exc + float :=
  match x with
  | PyInt z => float_of_int z
  | PyFloat f => inr f
  end.

(** [int(f)]: truncation towards zero. *)
Definition int_of_float (f : float) : Exc + Z :=
  match Prim2SF f with
  | S754_zero _ => inr 0
  | S754_finite s m e =>
      let mag := if 0 <=? e then Z.shiftl (Z.pos m) e else Z.shiftr (Z.pos m) (- e) in
      inr (if s then - mag else mag)
  | S754_infinity _ => inl OverflowError
  | S754_nan => inl (ValueError "cannot convert float NaN to integer")
  end.

(** Nearest integer to [num / den], ties to even; [0 < den]. *)
Definition div_half_even (num den : Z) : Z :=
  let q := num / den in
  let r := num mod den in
  match 2 * r ?= den with
  | Lt => q
  | Gt => q + 1
  | Eq => if Z.even q then q else q + 1
  end.

(** [round(f)]: nearest integer, ties to even. *)
Definition round_float (f : float) : Exc + Z :=
  match Prim2SF f with
  | S754_zero _ => inr 0
  | S754_finite s m e =>
      let mag := if 0 <=? e then Z.shiftl (Z.pos m) e
                 else div_half_even (Z.pos m) (2 ^ (- e)) in
      inr (if s then - mag else mag)
  | S754_infinity _ => inl OverflowError
  | S754_nan => inl (ValueError "cannot convert float NaN to integer")
  end.

(** The integer nearest to [m * 2^e * 10^p], ties to even: the digits
    that a fixed-point presentation with [p] decimals shows. *)
Definition scaled_round (p : nat) (m : positive) (e : Z) : Z :=
  let t := 10 ^ Z.of_nat p in
  if 0 <=? e then Z.pos m * 2 ^ e * t
  else div_half_even (Z.pos m * t) (2 ^ (- e)).

Definition digit_char (d : Z) : ascii := ascii_of_nat (48 + Z.to_nat d).

(** The [p] low decimal digits of [r], most significant first. *)
Fixpoint frac_digits (p : nat) (r : Z) : string :=
  match p with
  | O => EmptyString
  | S p' => frac_digits p' (r / 10) +:+ String (digit_char (r mod 10)) EmptyString
  end.

(** Decimal digits of a natural number, no sign, ["0"] for zero; [fuel]
    bounds the number of digits. *)
Fixpoint digits_fuel (fuel : nat) (n : Z) : string :=
  match fuel with
  | O => EmptyString
  | S k =>
      if n <? 10 then String (digit_char n) EmptyString
      else digits_fuel k (n / 10) +:+ String (digit_char (n mod 10)) EmptyString
  end.

Definition nat_digits (n : Z) : string := digits_fuel (S (Z.to_nat (Z.log2 n))) n.

(** [n / 10^p] written with exactly [p] decimals; no point when [p = 0]. *)
Definition fixed_digits (p : nat) (n : Z) : string :=
  let t := 10 ^ Z.of_nat p in
  match p with
  | O => nat_digits n
  | _ => nat_digits (n / t) +:+ "." +:+ frac_digits p (n mod t)
  end.

Definition sign_str (s : bool) : string := if s then "-" else "".

(** ["{:.pf}".format(f)] on a float. *)
Definition format_float (p : nat) (f : float) : string :=
  match Prim2SF f with
  | S754_nan => "nan"
  | S754_infinity s => sign_str s +:+ "inf"
  | S754_zero s => sign_str s +:+ fixed_digits p 0
  | S754_finite s m e => sign_str s +:+ fixed_digits p (scaled_round p m e)
  end.

(** The exact order between a float and an integer ([None] for a NaN). *)
Definition cmp_float_int (f : float) (n : Z) : option comparison :=
  match Prim2SF f with
  | S754_nan => None
  | S754_infinity s => Some (if s then Lt else Gt)
  | S754_zero _ => Some (0 ?= n)
  | S754_finite s m e =>
      let v := if s then Z.neg m else Z.pos m in
      Some (if 0 <=? e then v * 2 ^ e ?= n else v ?= n * 2 ^ (- e))
  end.

(** [a < b] on numbers; Python compares an [int] with a [float] exactly. *)
Definition num_ltb (a b : pynum) : bool :=
  match a, b with
  | PyInt m, PyInt n => m <? n
  | PyFloat f, PyFloat g => (f <? g)%float
  | PyFloat f, PyInt n => match cmp_float_int f n with Some Lt => true | _ => false end
  | PyInt n, PyFloat f => match cmp_float_int f n with Some Gt => true | _ => false end
  end.

(** [k * a] for a float [k]. *)
Definition float_mul_num (k : float) (a : pynum) : Exc + pynum :=
  match to_float a with
  | inr f => inr (PyFloat (k * f))
  | inl e => inl e
  end.

(** ["{:d}".format(z)]. *)
Definition format_int (z : Z) : string :=
  if z <? 0 then "-" +:+ nat_digits (- z) else nat_digits z.

End PyNum.

Import PyStr PyNum.

(** The error monad of pure Python code. *)
#[global] Instance Exc_ret : MRet (sum Exc) := λ A a, inr a.
#[global] Instance Exc_bind : MBind (sum Exc) := λ A B f m,
  match m with
  | inr a => f a
  | inl e => inl e
  end.

(** ** Kinematics value types *)

Record Position := mkPosition { x : float; y : float; z : float }.
Record Orientation := mkOrientation { qx : float; qy : float; qz : float; qw : float }.
Record Pose := mkPose { position : Position; orientation : Orientation }.
Record Joint := mkJoint { name : string; value : float }.

Definition METERS_TO_MM : float := 1000.
Definition MM_TO_METERS : float := 1 / METERS_TO_MM.
Definition MAX_TCP_SPEED : float := 1.5.
Definition MAX_GRIPPER_WIDTH : float := 0.02.
Definition MAX_GRIPPER_FORCE : Z := 20.

(** [math.degrees] and [math.radians] multiply by a constant computed
    once in binary64. *)
Definition math_pi : float := 3.141592653589793.
Definition degrees (r : float) : float := r * (180 / math_pi).
Definition radians (d : float) : float := d * (math_pi / 180).

(** Helpers of [arcor2.data.common], [arcor2.transformations], numpy and
    the [float] constructor: they are not part of the driver and stay
    abstract. *)
Class Extern := {
  float_of_string : string → option float;
  as_float_array : Orientation → list float;
  from_float_array : list float → Exc + Orientation;
  make_pose_rel : Pose → Pose → Pose;
  pose_delta : Pose → Pose → Position * list float }.

(** ** The world around the driver *)

(** Python objects the driver shares with its caller. *)
Inductive PyObj :=
| OPosition (p : Position)
| OOrientation (o : Orientation)
| OPose (position_ref orientation_ref : nat).

Record Socket := mkSocket { sock_port : Z; sock_open : bool }.

Record ArmState := mkArmState {
  arm_name : string;
  _ip : string;
  _port : Z;
  _bufsize : Z;
  _motion_timeout : float;
  _comm_timeout : float;
  _main_socket : nat;
  _poses_socket : nat;
  _joints_socket : nat;
  _sockets : list nat }.

Record YumiSettings := mkYumiSettings {
  ip : string;
  max_tcp_speed : float;
  home_on_start : bool }.

Record RobotState := mkRobotState {
  settings : YumiSettings;
  pose : nat;
  _speed : option Z;
  _left : ArmState;
  _right : ArmState;
  robot_motion_timeout : float;
  robot_comm_timeout : float }.

Inductive YumiArms := LEFT | RIGHT.

Definition YumiArms_value (a : YumiArms) : string :=
  match a with LEFT => "left" | RIGHT => "right" end.

(** What the environment answers. *)
Inductive WireReply := SendFails | RecvFails | Received (data : string).
Inductive RwsReply := RwsDone | RwsError (msg : string) | RwsCrash.
Inductive ConnReply := Connected | ConnTimeout | ConnRefused.
Inductive SupFailure := SupStopped | SupRwsError (msg : string) | SupCrash.

(** How one wait on futures unfolds: the order in which futures complete
    before the time limit, and how the supervisor ends if it does not end
    by cancellation. *)
Record Schedule := mkSchedule {
  order : list nat;
  sup_failure : option SupFailure }.

Record Env := mkEnv {
  wire_reply : nat → string → WireReply;
  rws_reply : nat → RwsReply;
  conn_reply : nat → ConnReply;
  schedule : nat → Schedule }.

Inductive RwsCall := CallStopRAPID | CallResetPP | CallStartRAPID.

Inductive Event :=
| EvAcquire
| EvRelease
| EvSend (sock : nat) (request : string)
| EvConnect (sock : nat) (port : Z)
| EvClose (sock : nat)
| EvRws (c : RwsCall)
| EvSupervise
| EvCancel
| EvRecover.

Record World := mkWorld {
  env : Env;
  heap : list PyObj;
  sockets : list Socket;
  robot : RobotState;
  move_lock : bool;
  cancel_event : bool;
  sent : nat;
  rws_calls : nat;
  connects : nat;
  waits : nat;
  trace : list Event }.

Definition set_heap (h : list PyObj) (w : World) : World :=
  mkWorld (env w) h (sockets w) (robot w) (move_lock w) (cancel_event w)
          (sent w) (rws_calls w) (connects w) (waits w) (trace w).
Definition set_sockets (s : list Socket) (w : World) : World :=
  mkWorld (env w) (heap w) s (robot w) (move_lock w) (cancel_event w)
          (sent w) (rws_calls w) (connects w) (waits w) (trace w).
Definition set_robot (r : RobotState) (w : World) : World :=
  mkWorld (env w) (heap w) (sockets w) r (move_lock w) (cancel_event w)
          (sent w) (rws_calls w) (connects w) (waits w) (trace w).
Definition set_move_lock (b : bool) (w : World) : World :=
  mkWorld (env w) (heap w) (sockets w) (robot w) b (cancel_event w)
          (sent w) (rws_calls w) (connects w) (waits w) (trace w).
Definition set_cancel_event (b : bool) (w : World) : World :=
  mkWorld (env w) (heap w) (sockets w) (robot w) (move_lock w) b
          (sent w) (rws_calls w) (connects w) (waits w) (trace w).
Definition set_sent (n : nat) (w : World) : World :=
  mkWorld (env w) (heap w) (sockets w) (robot w) (move_lock w) (cancel_event w)
          n (rws_calls w) (connects w) (waits w) (trace w).
Definition set_rws_calls (n : nat) (w : World) : World :=
  mkWorld (env w) (heap w) (sockets w) (robot w) (move_lock w) (cancel_event w)
          (sent w) n (connects w) (waits w) (trace w).
Definition set_connects (n : nat) (w : World) : World :=
  mkWorld (env w) (heap w) (sockets w) (robot w) (move_lock w) (cancel_event w)
          (sent w) (rws_calls w) n (waits w) (trace w).
Definition set_waits (n : nat) (w : World) : World :=
  mkWorld (env w) (heap w) (sockets w) (robot w) (move_lock w) (cancel_event w)
          (sent w) (rws_calls w) (connects w) n (trace w).
Definition set_trace (t : list Event) (w : World) : World :=
  mkWorld (env w) (heap w) (sockets w) (robot w) (move_lock w) (cancel_event w)
          (sent w) (rws_calls w) (connects w) (waits w) t.

(** ** The monad of driver code: state and exceptions *)

Definition M (A : Type) : Type := World → (Exc + A) * World.

#[global] Instance M_ret : MRet M := λ A a w, (inr a, w).
#[global] Instance M_bind : MBind M := λ A B f m w,
  match m w with
  | (inr a, w') => f a w'
  | (inl e, w') => (inl e, w')
  end.

Definition raise {A} (e : Exc) : M A := λ w, (inl e, w).
Definition lift {A} (r : Exc + A) : M A := λ w, (r, w).
Definition get_world : M World := λ w, (inr w, w).
Definition modify (f : World → World) : M unit := λ w, (inr tt, f w).
Definition log (e : Event) : M unit := modify (λ w, set_trace (trace w ++ [e]) w).

(** [try: m except Exception as e: h e]; a handler re-raises what it does
    not catch. *)
Definition try_except {A} (m : M A) (h : Exc → M A) : M A := λ w,
  match m w with
  | (inl e, w') => h e w'
  | r => r
  end.

(** [executor.submit(f, ...)]: the task runs and its outcome is kept in the
    future. *)
Definition submit {A} (m : M A) : M (Exc + A) := λ w,
  let '(r, w') := m w in (inr r, w').

(** [assert cond]. *)
Definition assert (cond : bool) : M unit :=
  if cond then mret tt else raise AssertionError.

(** [with self._move_lock: body].  The mutex is not reentrant. *)
Definition with_move_lock {A} (body : M A) : M A := λ w,
  if move_lock w then (inl Blocked, w)
  else
    let '(r, w') := body (set_trace (trace w ++ [EvAcquire]) (set_move_lock true w)) in
    (r, set_trace (trace w' ++ [EvRelease]) (set_move_lock false w')).

(** ** Wire codec *)

Module CmdCodes.

Inductive t :=
| ping | goto_pose_linear | goto_joints | get_pose | get_joints | goto_pose
| set_tool | set_speed | set_zone | set_conf
| goto_pose_sync | goto_joints_sync | goto_pose_delta
| close_gripper | open_gripper | calibrate_gripper | set_gripper_max_speed
| set_gripper_force | move_gripper | get_gripper_width
| buffer_add | buffer_clear | buffer_size | buffer_move
| set_circ_point | move_by_circ_point
| is_pose_reachable | is_joints_reachable | ik | fk
| set_lead_through | is_lead_through
| is_gripper_calibrated
| close_connection
| reset_home.

Definition value (c : t) : Z :=
  match c with
  | ping => 0 | goto_pose_linear => 1 | goto_joints => 2 | get_pose => 3
  | get_joints => 4 | goto_pose => 5 | set_tool => 6 | set_speed => 8
  | set_zone => 9 | set_conf => 10
  | goto_pose_sync => 11 | goto_joints_sync => 12 | goto_pose_delta => 13
  | close_gripper => 20 | open_gripper => 21 | calibrate_gripper => 22
  | set_gripper_max_speed => 23 | set_gripper_force => 24 | move_gripper => 25
  | get_gripper_width => 26
  | buffer_add => 30 | buffer_clear => 31 | buffer_size => 32 | buffer_move => 33
  | set_circ_point => 35 | move_by_circ_point => 36
  | is_pose_reachable => 40 | is_joints_reachable => 41 | ik => 42 | fk => 43
  | set_lead_through => 60 | is_lead_through => 61
  | is_gripper_calibrated => 70
  | close_connection => 99
  | reset_home => 100
  end.

End CmdCodes.

Module ResCodes.
Definition failure : Z := 0.
Definition success : Z := 1.
End ResCodes.

(** The format templates of the driver: ["{:.pf}"] (also written
    ["{0:.pf}"]; ["{:2f}"] is [TplFixed 6], its minimal width never pads)
    and ["{:d}"]. *)
Inductive Template :=
| TplFixed (p : nat)
| TplInt.

(** [template.format(val)]. *)
Definition format (template : Template) (val : pynum) : Exc + string :=
  match template, val with
  | TplFixed p, _ => f ← to_float val; mret (format_float p f)
  | TplInt, PyInt n => mret (format_int n)
  | TplInt, PyFloat _ => inl (ValueError "Unknown format code 'd' for object of type 'float'")
  end.

(** The trimming applied to every field. *)
Definition trim (s : string) : string := rstrip "." (rstrip "0" s).

Fixpoint _iter_to_str_from (result : string) (template : Template)
    (iterable : list pynum) : Exc + string :=
  match iterable with
  | [] => mret result
  | val :: rest =>
      s ← format template val;
      _iter_to_str_from (result +:+ trim s +:+ " ") template rest
  end.

Definition _iter_to_str (template : Template) (iterable : list pynum) : Exc + string :=
  _iter_to_str_from "" template iterable.

Definition _construct_req (code : CmdCodes.t) (body : string) : string :=
  format_int (CmdCodes.value code) +:+ " " +:+ body +:+ "#".

(** ** Arm socket *)

Module YumiSocket.

(** [YumiSocket(ip, port, bufsize, timeout)]: a new socket object, connected. *)
Definition connect (ip : string) (port : Z) : M nat := λ w,
  let w1 := set_connects (S (connects w)) w in
  match conn_reply (env w) (connects w) with
  | Connected =>
      let id := length (sockets w1) in
      (inr id, set_trace (trace w1 ++ [EvConnect id port])
                 (set_sockets (sockets w1 ++ [mkSocket port true]) w1))
  | ConnTimeout =>
      (inl (YuMiCommException
              ("Failed to connect to " +:+ ip +:+ ":" +:+ format_int port +:+ ".")), w1)
  | ConnRefused => (inl OSError, w1)
  end.

Definition close (sock : nat) : M unit := λ w,
  match sockets w !! sock with
  | Some s =>
      (inr tt, set_trace (trace w ++ [EvClose sock])
                 (set_sockets (<[sock := mkSocket (sock_port s) false]> (sockets w)) w))
  | None => (inl AttributeError, w)
  end.

(** The reply as received, classified. *)
Definition parse_response (recv : string) : Exc + RawResponse :=
  if String.eqb recv "" then inl (YuMiCommException "Empty response.")
  else
    let tokens := split_ws recv in
    match tokens !! 0%nat with
    | None => inl (YuMiCommException "Invalid response.")
    | Some t0 =>
        match py_int t0 with
        | None => inl (YuMiCommException "Invalid response.")
        | Some m =>
            match tokens !! 1%nat with
            | None => inl (YuMiCommException "Invalid response.")
            | Some t1 =>
                match py_int t1 with
                | None => inl (YuMiCommException "Invalid response.")
                | Some r => inr (mkRawResponse m r (join " " (drop 2 tokens)))
                end
            end
        end
    end.

Definition send_request (sock : nat) (req_packet : RequestPacket) : M RawResponse := λ w,
  match sockets w !! sock with
  | None => (inl AttributeError, w)
  | Some s =>
      if negb (sock_open s) then (inl OSError, w)
      else
        let w1 := set_sent (S (sent w)) w in
        match wire_reply (env w) (sent w) (req req_packet) with
        | SendFails => (inl (YuMiCommException "Failed to send request."), w1)
        | RecvFails =>
            (inl (YuMiCommException "Failed to get response."),
             set_trace (trace w1 ++ [EvSend sock (req req_packet)]) w1)
        | Received recv =>
            (parse_response recv,
             set_trace (trace w1 ++ [EvSend sock (req req_packet)]) w1)
        end
  end.

End YumiSocket.

(** ** RWS client: each operation is one exchange with the controller's
    HTTP service; the model records the operation and takes its outcome
    from the environment. *)

Module RWS.

Definition call (c : RwsCall) : M unit := λ w,
  let w1 := set_trace (trace w ++ [EvRws c]) (set_rws_calls (S (rws_calls w)) w) in
  match rws_reply (env w) (rws_calls w) with
  | RwsDone => (inr tt, w1)
  | RwsError msg => (inl (RwsException msg), w1)
  | RwsCrash => (inl OSError, w1)
  end.

Definition stop_RAPID : M unit := call CallStopRAPID.
Definition reset_pp : M unit := call CallResetPP.
Definition start_RAPID : M unit := call CallStartRAPID.

(** The exception with which [block_while_running] ends when it is not
    cancelled. *)
Definition failure_exc (f : SupFailure) : Exc :=
  match f with
  | SupStopped => ProgramStopped
  | SupRwsError msg => RwsException msg
  | SupCrash => OSError
  end.

End RWS.

(** ** Object store: poses are shared with the caller by reference *)

Definition for_each {A} (body : A → M unit) : list A → M unit :=
  fix go l :=
    match l with
    | [] => mret tt
    | a :: rest => body a;; go rest
    end.

Definition alloc (o : PyObj) : M nat := λ w,
  (inr (length (heap w)), set_heap (heap w ++ [o]) w).

(** [Pose(position, orientation)] with fresh parts. *)
Definition new_pose (p : Pose) : M nat :=
  pl ← alloc (OPosition (position p));
  ol ← alloc (OOrientation (orientation p));
  alloc (OPose pl ol).

Definition read_pose (l : nat) : M Pose := λ w,
  match heap w !! l with
  | Some (OPose pl ol) =>
      match heap w !! pl, heap w !! ol with
      | Some (OPosition p), Some (OOrientation o) => (inr (mkPose p o), w)
      | _, _ => (inl AttributeError, w)
      end
  | _ => (inl AttributeError, w)
  end.

(** [copy.deepcopy(pose)]. *)
Definition deepcopy (l : nat) : M nat := p ← read_pose l; new_pose p.

Definition Position_mul (p : Position) (k : float) : Position :=
  mkPosition (x p * k) (y p * k) (z p * k).

(** [pose.position *= k]: the position object is scaled in place. *)
Definition position_imul (l : nat) (k : float) : M unit := λ w,
  match heap w !! l with
  | Some (OPose pl ol) =>
      match heap w !! pl with
      | Some (OPosition p) =>
          (inr tt, set_heap (<[pl := OPosition (Position_mul p k)]> (heap w)) w)
      | _ => (inl AttributeError, w)
      end
  | _ => (inl AttributeError, w)
  end.

(** [pose.position.z += dz]: the position object is changed in place. *)
Definition position_iadd_z (l : nat) (dz : float) : M unit := λ w,
  match heap w !! l with
  | Some (OPose pl ol) =>
      match heap w !! pl with
      | Some (OPosition p) =>
          (inr tt,
           set_heap (<[pl := OPosition (mkPosition (x p) (y p) (z p + dz))]> (heap w)) w)
      | _ => (inl AttributeError, w)
      end
  | _ => (inl AttributeError, w)
  end.

Definition newline : string := String (ascii_of_nat 10) EmptyString.

Section WithExtern.

Context {ext : Extern}.

(** [float(token)] for each token; a token that is no number raises. *)
Definition floats_of_tokens (tokens : list string) : Exc + list float :=
  mapM (λ t, match float_of_string t with
             | Some f => inr f
             | None => inl (ValueError "could not convert string to float")
             end) tokens.

Definition message_to_pose (message : string) : Exc + Pose :=
  let tokens := split_ws message in
  if negb (length tokens =? 7)%nat then
    inl (YumiException ("Invalid format for pose! Got:" +:+ newline +:+ message))
  else
    pose_vals ← floats_of_tokens tokens;
    let q := drop 3 pose_vals in
    let t := take 3 pose_vals in
    match t with
    | [t0; t1; t2] =>
        match from_float_array q with
        | inr o => inr (mkPose (Position_mul (mkPosition t0 t1 t2) MM_TO_METERS) o)
        | inl IndexError | inl (ValueError _) => inl (YumiException "Invalid pose.")
        | inl e => inl e
        end
    | _ => inl (YumiException "Invalid pose.")
    end.

End WithExtern.

(** ** Arm session *)

Module YuMiArm.

Definition JOINTS : nat := 7.

(** The arm object that [self] denotes. *)
Definition arm_of (self : YumiArms) (w : World) : ArmState :=
  match self with LEFT => _left (robot w) | RIGHT => _right (robot w) end.

Definition get_self (self : YumiArms) : M ArmState := λ w, (inr (arm_of self w), w).

Definition put_self (self : YumiArms) (a : ArmState) : M unit :=
  modify (λ w,
    let r := robot w in
    set_robot
      match self with
      | LEFT => mkRobotState (settings r) (pose r) (_speed r) a (_right r)
                  (robot_motion_timeout r) (robot_comm_timeout r)
      | RIGHT => mkRobotState (settings r) (pose r) (_speed r) (_left r) a
                   (robot_motion_timeout r) (robot_comm_timeout r)
      end w).

Definition set_main_socket (s : nat) (a : ArmState) : ArmState :=
  mkArmState (arm_name a) (_ip a) (_port a) (_bufsize a) (_motion_timeout a)
    (_comm_timeout a) s (_poses_socket a) (_joints_socket a) (_sockets a).
Definition set_poses_socket (s : nat) (a : ArmState) : ArmState :=
  mkArmState (arm_name a) (_ip a) (_port a) (_bufsize a) (_motion_timeout a)
    (_comm_timeout a) (_main_socket a) s (_joints_socket a) (_sockets a).
Definition set_joints_socket (s : nat) (a : ArmState) : ArmState :=
  mkArmState (arm_name a) (_ip a) (_port a) (_bufsize a) (_motion_timeout a)
    (_comm_timeout a) (_main_socket a) (_poses_socket a) s (_sockets a).

(** [self.name[0]] as a one-character string. *)
Definition name0 (a : ArmState) : Exc + string :=
  match arm_name a with
  | String c _ => inr (String c EmptyString)
  | EmptyString => inl IndexError
  end.

Definition terminate (self : YumiArms) : M unit :=
  a ← get_self self;
  for_each YumiSocket.close (_sockets a).

Definition reconnect (self : YumiArms) : M unit :=
  terminate self;;
  a ← get_self self;
  s ← YumiSocket.connect (_ip a) (_port a);
  put_self self (set_main_socket s a);;
  a ← get_self self;
  s ← YumiSocket.connect (_ip a) (_port a + 2);
  put_self self (set_poses_socket s a);;
  a ← get_self self;
  s ← YumiSocket.connect (_ip a) (_port a + 4);
  put_self self (set_joints_socket s a).

Definition _request (self : YumiArms) (req : string) (timeout : option float)
    (socket : option nat) : M RawResponse :=
  a ← get_self self;
  let timeout := default (_comm_timeout a) timeout in
  let socket := default (_main_socket a) socket in
  let req_packet := mkRequestPacket req timeout true in
  res ← YumiSocket.send_request socket req_packet;
  if negb (res_code res =? ResCodes.success) then
    raise (YuMiControlException req_packet res)
  else mret res.

Definition ping (self : YumiArms) : M unit :=
  a ← get_self self;
  for_each (λ s, _request self (_construct_req CmdCodes.ping "") None (Some s);; mret tt)
           (_sockets a).

Definition joint_name (i : nat) (side : string) : string :=
  "yumi_joint_" +:+ format_int (Z.of_nat i + 1) +:+ "_" +:+ side.

(** The set [joint_names()] listed by index. *)
Definition joint_names (self : YumiArms) : M (list string) :=
  a ← get_self self;
  assert (negb (String.eqb (arm_name a) ""));;
  side ← lift (name0 a);
  mret ((λ i, joint_name i side) <$> seq 0 JOINTS).

Section WithExtern.

Context {ext : Extern}.

Definition _get_pose_body (pose : nat) : M string :=
  pose ← deepcopy pose;
  position_imul pose METERS_TO_MM;;
  p ← read_pose pose;
  lift (a ← _iter_to_str (TplFixed 2)
              [PyFloat (x (position p)); PyFloat (y (position p)); PyFloat (z (position p))];
        b ← _iter_to_str (TplFixed 5) (PyFloat <$> as_float_array (orientation p));
        mret (a +:+ b)).

Definition _response_to_joints (self : YumiArms) (res : RawResponse) : M (list Joint) :=
  a ← get_self self;
  let tokens := split_ws (message res) in
  if negb (length tokens =? JOINTS)%nat then
    raise (YumiException ("Invalid format for states! Got: '" +:+ message res +:+ "'."))
  else
    vals ← lift (floats_of_tokens tokens);
    let values := radians <$> vals in
    assert (negb (String.eqb (arm_name a) ""));;
    side ← lift (name0 a);
    mret (imap (λ i j, mkJoint (joint_name i side) j) values).

Definition _joints_to_str (joints : list Joint) : Exc + string :=
  _iter_to_str (TplFixed 2) ((λ j, PyFloat (degrees (value j))) <$> joints).

Definition get_pose (self : YumiArms) : M nat :=
  a ← get_self self;
  res ← _request self (_construct_req CmdCodes.get_pose "") None (Some (_poses_socket a));
  p ← lift (message_to_pose (message res));
  new_pose p.

(** [bool(int(res.message))]. *)
Definition bool_of_message (res : RawResponse) : M bool :=
  match py_int (message res) with
  | Some n => mret (negb (n =? 0))
  | None => raise (ValueError "invalid literal for int() with base 10")
  end.

Definition is_pose_reachable (self : YumiArms) (pose : nat) : M bool :=
  body ← _get_pose_body pose;
  let req := _construct_req CmdCodes.is_pose_reachable body in
  res ← _request self req None None;
  bool_of_message res.

(** [except YuMiControlException as e: raise KinematicsException(str(e))]. *)
Definition as_kinematics {A} (e : Exc) : M A :=
  match e with
  | YuMiControlException _ res => raise (KinematicsException (message res))
  | _ => raise e
  end.

Definition ik (self : YumiArms) (pose : nat) : M (list Joint) :=
  try_except
    (body ← _get_pose_body pose;
     res ← _request self (_construct_req CmdCodes.ik body) None None;
     _response_to_joints self res)
    as_kinematics.

(** One turn of the validation loop of [_check_and_sort_joints]. *)
Definition check_joint (a : ArmState) (j : Joint) : Exc + unit :=
  let arr := split_on "_" (name j) in
  idx ← match arr !! 2%nat with
         | None => inl IndexError
         | Some s =>
             match py_int s with
             | Some i => inr i
             | None => inl (YumiException ("Invalid format of joint name: " +:+ name j +:+ "."))
             end
         end;
  if negb (length arr =? 4)%nat
     || negb (bool_decide (arr !! 0%nat = Some "yumi"))
     || negb (bool_decide (arr !! 1%nat = Some "joint"))
     || negb ((0 <? idx) && (idx <=? Z.of_nat JOINTS))
  then inl (YumiException ("Invalid format of joint name: " +:+ name j +:+ "."))
  else
    let arr3 := default "" (arr !! 3%nat) in
    let wrong := inl (YumiException ("Joint name " +:+ name j +:+ " not valid for "
                                       +:+ arm_name a +:+ " arm.")) in
    if negb (String.length arr3 =? 1)%nat then wrong
    else
      side ← name0 a;
      if negb (String.eqb arr3 side) then wrong else mret tt.

(** The sort key [int(x.name.split("_")[2])]. *)
Definition joint_index (j : Joint) : Exc + Z :=
  match split_on "_" (name j) !! 2%nat with
  | None => inl IndexError
  | Some s =>
      match py_int s with
      | Some i => inr i
      | None => inl (ValueError "invalid literal for int() with base 10")
      end
  end.

(** Stable insertion by key: [list.sort(key=...)] keeps the order of
    elements with equal keys. *)
Fixpoint insert_keyed (k : Z) (j : Joint) (l : list (Z * Joint)) : list (Z * Joint) :=
  match l with
  | [] => [(k, j)]
  | (k', j') :: rest =>
      if k <=? k' then (k, j) :: l else (k', j') :: insert_keyed k j rest
  end.

Definition sort_keyed (l : list (Z * Joint)) : list (Z * Joint) :=
  foldr (λ kj acc, insert_keyed kj.1 kj.2 acc) [] l.

Definition sort_joints (joints : list Joint) : Exc + list Joint :=
  keys ← mapM joint_index joints;
  mret (snd <$> sort_keyed (zip keys joints)).

(** The list is checked and sorted in place; the model returns its new
    contents. *)
Definition _check_and_sort_joints (self : YumiArms) (joints : list Joint) : M (list Joint) :=
  a ← get_self self;
  if negb (length joints =? JOINTS)%nat then
    raise (YumiException "Invalid number of joints.")
  else
    lift (mapM (check_joint a) joints);;
    lift (sort_joints joints).

Definition fk (self : YumiArms) (joints : list Joint) : M nat :=
  joints ← _check_and_sort_joints self joints;
  try_except
    (body ← lift (_joints_to_str joints);
     res ← _request self (_construct_req CmdCodes.fk body) None None;
     p ← lift (message_to_pose (message res));
     new_pose p)
    as_kinematics.

Definition goto_joints (self : YumiArms) (joints : list Joint) : M unit :=
  joints ← _check_and_sort_joints self joints;
  a ← get_self self;
  body ← lift (_joints_to_str joints);
  _request self (_construct_req CmdCodes.goto_joints body) (Some (_motion_timeout a)) None;;
  mret tt.

Definition goto_joints_sync (self : YumiArms) (joints : list Joint) : M unit :=
  joints ← _check_and_sort_joints self joints;
  a ← get_self self;
  body ← lift (_joints_to_str joints);
  _request self (_construct_req CmdCodes.goto_joints_sync body)
    (Some (_motion_timeout a)) None;;
  mret tt.

Definition goto_pose_delta (self : YumiArms) (translation : list float)
    (rotation : option (list float)) : M unit :=
  let translation := (λ val, PyFloat (val * METERS_TO_MM)) <$> translation in
  translation_str ← lift (_iter_to_str (TplFixed 1) translation);
  rotation_str ← match rotation with
                  | Some rotation => lift (_iter_to_str (TplFixed 5) (PyFloat <$> rotation))
                  | None => mret ""
                  end;
  let body := translation_str +:+ rotation_str in
  let req := _construct_req CmdCodes.goto_pose_delta body in
  a ← get_self self;
  _request self req (Some (_motion_timeout a)) None;;
  mret tt.

Definition goto_pose (self : YumiArms) (pose : nat) (linear relative : bool) : M unit :=
  if relative then
    cur_pose ← get_pose self;
    cur ← read_pose cur_pose;
    target ← read_pose pose;
    let '(delta_position, rot) := pose_delta cur target in
    goto_pose_delta self [x delta_position; y delta_position; z delta_position] (Some rot)
  else
    body ← _get_pose_body pose;
    let cmd := if linear then CmdCodes.goto_pose_linear else CmdCodes.goto_pose in
    let req := _construct_req cmd body in
    a ← get_self self;
    _request self req (Some (_motion_timeout a)) None;;
    mret tt.

Definition goto_pose_sync (self : YumiArms) (pose : nat) : M unit :=
  body ← _get_pose_body pose;
  let req := _construct_req CmdCodes.goto_pose_sync body in
  a ← get_self self;
  _request self req (Some (_motion_timeout a)) None;;
  mret tt.

Definition set_tool (self : YumiArms) (pose : nat) : M unit :=
  body ← _get_pose_body pose;
  let req := _construct_req CmdCodes.set_tool body in
  _request self req None None;;
  mret tt.

Definition buffer_add_single (self : YumiArms) (pose : nat) : M unit :=
  body ← _get_pose_body pose;
  let req := _construct_req CmdCodes.buffer_add body in
  _request self req None None;;
  mret tt.

(** [self._request(req_set_circ_point, True)]: [True] is the second
    positional argument of [_request], the time limit, and counts as one
    second.  [_request] returns a response or raises, so the test
    [res_set_circ_point is None] of the source never holds. *)
Definition move_circular (self : YumiArms) (center_pose target_pose : nat) : M unit :=
  body_set_circ_point ← _get_pose_body center_pose;
  body_move_by_circ_point ← _get_pose_body target_pose;
  let req_set_circ_point := _construct_req CmdCodes.set_circ_point body_set_circ_point in
  let req_move_by_circ_point :=
    _construct_req CmdCodes.move_by_circ_point body_move_by_circ_point in
  _request self req_set_circ_point (Some 1%float) None;;
  a ← get_self self;
  _request self req_move_by_circ_point (Some (_motion_timeout a)) None;;
  mret tt.

Definition buffer_add_all (self : YumiArms) (pose_list : list nat) : M unit :=
  for_each (buffer_add_single self) pose_list.

Definition get_gripper_width (self : YumiArms) : M float :=
  let req := _construct_req CmdCodes.get_gripper_width "" in
  res ← _request self req None None;
  match float_of_string (message res) with
  | Some f => mret (f * MM_TO_METERS)%float
  | None => raise (ValueError "could not convert string to float")
  end.

Definition joints (self : YumiArms) (include_gripper : bool) : M (list Joint) :=
  a ← get_self self;
  res ← _request self (_construct_req CmdCodes.get_joints "") None (Some (_joints_socket a));
  joints ← _response_to_joints self res;
  if include_gripper then
    w ← get_gripper_width self;
    a ← get_self self;
    side ← lift (name0 a);
    mret (joints ++ [mkJoint ("gripper_" +:+ side +:+ "_joint") w;
                     mkJoint ("gripper_" +:+ side +:+ "_joint_m") w])
  else mret joints.

End WithExtern.

Definition set_speed (self : YumiArms) (speed_data : list pynum) : M unit :=
  body ← lift (_iter_to_str (TplFixed 2) speed_data);
  let req := _construct_req CmdCodes.set_speed body in
  _request self req None None;;
  mret tt.

(** [zone_data] is the pair of [point_motion] and [values]. *)
Definition set_zone (self : YumiArms) (zone_data : pynum * list pynum) : M unit :=
  let pm := zone_data.1 in
  let data := pm :: zone_data.2 in
  body ← lift (_iter_to_str (TplFixed 6) data);
  let req := _construct_req CmdCodes.set_zone body in
  _request self req None None;;
  mret tt.

Definition set_conf (self : YumiArms) (conf_data : list pynum) : M unit :=
  body ← lift (_iter_to_str TplInt conf_data);
  let req := _construct_req CmdCodes.set_conf body in
  _request self req None None;;
  mret tt.

(** The text of the [ValueError]s of [close_gripper]; the offending value,
    which the source appends, is left out. *)
Definition force_range_msg : string := "Gripper force can only be between 0 and 20.".
Definition width_range_msg : string := "Gripper width can only be between 0 and 0.02.".

Definition open_gripper (self : YumiArms) (force width : option pynum) (no_wait : bool)
    : M unit :=
  let force := default (PyInt MAX_GRIPPER_FORCE) force in
  req ← match width with
         | Some width =>
             width ← lift (float_mul_num METERS_TO_MM width);
             body ← lift (_iter_to_str (TplFixed 1)
                            ([force; width] ++ (if no_wait then [PyInt 0] else [])));
             mret (_construct_req CmdCodes.open_gripper body)
         | None =>
             body ← lift (_iter_to_str (TplFixed 1)
                            ([force] ++ (if no_wait then [PyInt 0] else [])));
             mret (_construct_req CmdCodes.open_gripper body)
         end;
  a ← get_self self;
  _request self req (Some (_motion_timeout a)) None;;
  mret tt.

Definition close_gripper (self : YumiArms) (force width : pynum) (no_wait : bool) : M unit :=
  if num_ltb force (PyInt 0) || num_ltb (PyInt MAX_GRIPPER_FORCE) force then
    raise (ValueError force_range_msg)
  else if num_ltb width (PyInt 0) || num_ltb (PyFloat MAX_GRIPPER_WIDTH) width then
    raise (ValueError width_range_msg)
  else
    width ← lift (float_mul_num METERS_TO_MM width);
    body ← lift (_iter_to_str (TplFixed 1)
                   ([force; width] ++ (if no_wait then [PyInt 0] else [])));
    let req := _construct_req CmdCodes.close_gripper body in
    a ← get_self self;
    _request self req (Some (_motion_timeout a)) None;;
    mret tt.

(** [YuMiArm(name, ip, port, bufsize, motion_timeout, comm_timeout)]: the
    three sockets are connected in this order. *)
Definition __init__ (name ip : string) (port bufsize : Z)
    (motion_timeout comm_timeout : float) : M ArmState :=
  main ← YumiSocket.connect ip port;
  poses ← YumiSocket.connect ip (port + 2);
  joints ← YumiSocket.connect ip (port + 4);
  mret (mkArmState name ip port bufsize motion_timeout comm_timeout
          main poses joints [main; poses; joints]).

(** The property [lead_through] and its setter. *)
Definition lead_through (self : YumiArms) : M bool :=
  let req := _construct_req CmdCodes.is_lead_through "" in
  res ← _request self req None None;
  bool_of_message res.

Definition set_lead_through (self : YumiArms) (enabled : bool) : M unit :=
  let req := _construct_req CmdCodes.set_lead_through
               (format_int (if enabled then 1 else 0) +:+ " ") in
  _request self req None None;;
  mret tt.

Definition is_gripper_calibrated (self : YumiArms) : M bool :=
  let req := _construct_req CmdCodes.is_gripper_calibrated "" in
  res ← _request self req None None;
  bool_of_message res.

Definition buffer_clear (self : YumiArms) : M unit :=
  let req := _construct_req CmdCodes.buffer_clear "" in
  _request self req None None;;
  mret tt.

Definition buffer_size (self : YumiArms) : M Z :=
  let req := _construct_req CmdCodes.buffer_size "" in
  res ← _request self req None None;
  match py_int (message res) with
  | Some n => mret n
  | None => raise (YumiException "")
  end.

Definition buffer_move (self : YumiArms) : M unit :=
  a ← get_self self;
  _request self (_construct_req CmdCodes.buffer_move "") (Some (_motion_timeout a)) None;;
  mret tt.

Definition move_gripper (self : YumiArms) (width : pynum) (no_wait : bool) : M unit :=
  width ← lift (to_float width);
  let lst := [PyFloat (width * METERS_TO_MM)] ++ (if no_wait then [PyInt 0] else []) in
  body ← lift (_iter_to_str (TplFixed 1) lst);
  let req := _construct_req CmdCodes.move_gripper body in
  a ← get_self self;
  _request self req (Some (_motion_timeout a)) None;;
  mret tt.

(** [None in (max_speed, hold_force, phys_limit)] decides between the
    empty body and the three values. *)
Definition calibrate_gripper (self : YumiArms)
    (max_speed hold_force phys_limit : option pynum)
    (skip_if_already_calibrated : bool) : M unit :=
  calibrated ← (if skip_if_already_calibrated return M bool
                then is_gripper_calibrated self else mret false);
  if calibrated : bool then mret tt
  else
    body ← match max_speed, hold_force, phys_limit return M string with
           | Some max_speed, Some hold_force, Some phys_limit =>
               lift (_iter_to_str (TplFixed 1) [max_speed; hold_force; phys_limit])
           | _, _, _ => mret ""
           end;
    let req := _construct_req CmdCodes.calibrate_gripper body in
    a ← get_self self;
    _request self req (Some (_motion_timeout a)) None;;
    mret tt.

Definition set_gripper_force (self : YumiArms) (force : pynum) : M unit :=
  body ← lift (_iter_to_str (TplFixed 1) [force]);
  let req := _construct_req CmdCodes.set_gripper_force body in
  _request self req None None;;
  mret tt.

Definition set_gripper_max_speed (self : YumiArms) (max_speed : pynum) : M unit :=
  body ← lift (_iter_to_str (TplFixed 6) [max_speed]);
  let req := _construct_req CmdCodes.set_gripper_max_speed body in
  _request self req None None;;
  mret tt.

Definition reset_home (self : YumiArms) : M unit :=
  _request self (_construct_req CmdCodes.reset_home "") None None;;
  mret tt.

End YuMiArm.

(** ** Dual-arm coordinator *)

Module YuMi.

Definition get_robot : M RobotState := λ w, (inr (robot w), w).

Definition set_speed_cache (v : option Z) : M unit :=
  modify (λ w,
    let r := robot w in
    set_robot (mkRobotState (settings r) (pose r) v (_left r) (_right r)
                 (robot_motion_timeout r) (robot_comm_timeout r)) w).

(** The property [arms]: the left arm, then the right arm. *)
Definition arms : list YumiArms := [LEFT; RIGHT].

Definition _mapping : gmap string YumiArms :=
  <[YumiArms_value LEFT := LEFT]> (<[YumiArms_value RIGHT := RIGHT]> ∅).

Definition _arm_by_name (name : option string) : M YumiArms :=
  match name with
  | None => raise (YumiException "Arm has to be specified.")
  | Some name =>
      match _mapping !! name with
      | Some arm => mret arm
      | None => raise (YumiException "Unknown arm name.")
      end
  end.

Definition next_schedule : M Schedule := λ w,
  (inr (schedule (env w) (waits w)), set_waits (S (waits w)) w).

(** [for f in cf.as_completed(futures, timeout): f.result()].  A future is
    [None] when it does not complete within the time limit; [order] lists
    the futures in the order in which they complete. *)
Fixpoint as_completed (futures : list (option (Exc + unit))) (seen : list nat)
    (order : list nat) : Exc + unit :=
  match order with
  | [] => if (length seen =? length futures)%nat then inr tt else inl TimeoutError
  | i :: rest =>
      if bool_decide (i ∈ seen) then as_completed futures seen rest
      else
        match futures !! i with
        | Some (Some (inl e)) => inl e
        | Some (Some (inr _)) => as_completed futures (i :: seen) rest
        | _ => as_completed futures seen rest
        end
  end.

Definition wait_for_all (futures : list (Exc + unit)) (timeout : float)
    (timeout_error_message : string) : M unit :=
  s ← next_schedule;
  match as_completed (Some <$> futures) [] (order s) with
  | inl TimeoutError => raise (YuMiCommException timeout_error_message)
  | r => lift r
  end.

Definition construct_speed_data (tra rot : pynum) : list pynum := [tra; rot; tra; rot].

Definition get_v (n : Z) : list pynum := construct_speed_data (PyInt n) (PyInt 500).

Definition set_v (n : Z) : M unit :=
  r ← get_robot;
  if bool_decide (_speed r = Some n) then mret tt
  else
    let speed_data := get_v n in
    futures ← mapM (λ arm, submit (YuMiArm.set_speed arm speed_data)) arms;
    wait_for_all futures (robot_comm_timeout r) "Failed to set speed.".

Definition ZONE_VALUES : gmap string (list pynum) :=
  list_to_map
    [("fine", [PyInt 0; PyInt 0; PyInt 0]);
     ("z0", [PyFloat 0.3; PyFloat 0.3; PyFloat 0.03]);
     ("z1", [PyInt 1; PyInt 1; PyFloat 0.1]);
     ("z5", [PyInt 5; PyInt 8; PyFloat 0.8]);
     ("z10", [PyInt 10; PyInt 15; PyFloat 1.5]);
     ("z15", [PyInt 15; PyInt 23; PyFloat 2.3]);
     ("z20", [PyInt 20; PyInt 30; PyInt 3]);
     ("z30", [PyInt 30; PyInt 45; PyFloat 4.5]);
     ("z50", [PyInt 50; PyInt 75; PyFloat 7.5]);
     ("z100", [PyInt 100; PyInt 150; PyInt 15]);
     ("z200", [PyInt 200; PyInt 300; PyInt 30])].

Definition get_z (name : string) : Exc + pynum * list pynum :=
  match ZONE_VALUES !! name with
  | None => inl KeyError
  | Some values =>
      let point_motion := if String.eqb name "fine" then PyInt 1 else PyInt 0 in
      inr (point_motion, values)
  end.

Definition set_z (name : string) : M unit :=
  zone_data ← lift (get_z name);
  r ← get_robot;
  futures ← mapM (λ arm, submit (YuMiArm.set_zone arm zone_data)) arms;
  wait_for_all futures (robot_comm_timeout r) "Failed set zone data.".

(** Modelled from the spec: [Pose()] of arcor2.data.common, the identity
    pose ("set_tool=identity"). *)
Definition Pose_default : Pose := mkPose (mkPosition 0 0 0) (mkOrientation 0 0 0 1).

Section WithExtern.

Context {ext : Extern}.

Definition set_tool (pose : nat) : M unit :=
  r ← get_robot;
  futures ← mapM (λ arm, submit (YuMiArm.set_tool arm pose)) arms;
  wait_for_all futures (robot_comm_timeout r) "Failed to set tool.".

Definition default_configuration : M unit :=
  p ← new_pose Pose_default;
  set_tool p;;
  set_z "fine";;
  YuMiArm.set_conf LEFT [PyInt 0; PyInt 0; PyInt 0; PyInt 4];;
  YuMiArm.set_conf RIGHT [PyInt 0; PyInt 0; PyInt 0; PyInt 4].

(** [try: call except RwsException: pass]. *)
Definition best_effort (call : M unit) : M unit :=
  try_except call (λ e, if is_RwsException e then mret tt else raise e).

(** [str(e)] of an [RwsException]. *)
Definition rws_message (e : Exc) : string :=
  match e with
  | RwsException msg => msg
  | _ => ""
  end.

Definition recover : M unit :=
  log EvRecover;;
  best_effort RWS.stop_RAPID;;
  best_effort RWS.reset_pp;;
  try_except RWS.start_RAPID
    (λ e, if is_RwsException e then
            raise (YumiException ("Failed to recover from stopped program. " +:+ rws_message e))
          else raise e);;
  for_each YuMiArm.reconnect arms;;
  default_configuration;;
  set_speed_cache None.

(** [int(speed * self.settings.max_tcp_speed * METERS_TO_MM)]. *)
Definition speed_number (r : RobotState) (speed : float) : Exc + Z :=
  int_of_float (speed * max_tcp_speed (settings r) * METERS_TO_MM).

(** [evt = Event()] and [evt.set()]. *)
Definition new_event : M unit := modify (set_cancel_event false).
Definition evt_set : M unit := log EvCancel;; modify (set_cancel_event true).

(** [tr.make_pose_rel(self.pose, target)]: a new pose object. *)
Definition make_pose_rel_obj (target_pose : nat) : M nat :=
  r ← get_robot;
  base ← read_pose (pose r);
  target ← read_pose target_pose;
  new_pose (make_pose_rel base target).

(** How the supervisor's future ends. *)
Definition supervisor_result (s : Schedule) : Exc + unit :=
  match sup_failure s with
  | Some f => inl (RWS.failure_exc f)
  | None => inr tt
  end.

(** The futures of [move_to_pose] in the order in which they complete.
    The supervisor completes first only by failing; otherwise it ends
    after the motion, cancelled or failed. *)
Definition completion_order (s : Schedule) (motion : Exc + unit) : list (Exc + unit) :=
  match sup_failure s, order s with
  | Some f, O :: _ => [supervisor_result s; motion]
  | _, _ => [motion; supervisor_result s]
  end.

(** The body of [for f in cf.as_completed(futures)] in [move_to_pose]. *)
Fixpoint completion_protocol (completed : list (Exc + unit)) : M unit :=
  match completed with
  | [] => mret tt
  | f :: rest =>
      match f with
      | inl e =>
          if is_YumiException e then evt_set;; raise e
          else if is_ProgramStopped e then
            recover;; raise (YumiException "Impossible motion.")
          else raise e
      | inr _ => evt_set;; completion_protocol rest
      end
  end.

Definition move_to_pose (end_effector_id : string) (target_pose : nat) (speed : float)
    (safe linear : bool) (arm_id : option string) : M unit :=
  assert ((0 <=? speed)%float && (speed <=? 1)%float);;
  with_move_lock
    (r ← get_robot;
     n ← lift (speed_number r speed);
     set_v n;;
     new_event;;
     log EvSupervise;;
     arm ← _arm_by_name arm_id;
     rel ← make_pose_rel_obj target_pose;
     motion ← submit (YuMiArm.goto_pose arm rel linear false);
     s ← next_schedule;
     completion_protocol (completion_order s motion)).

Definition goto_joints_sync (left right : list Joint) : M unit :=
  r ← get_robot;
  f1 ← submit (YuMiArm.goto_joints_sync LEFT left);
  f2 ← submit (YuMiArm.goto_joints_sync RIGHT right);
  wait_for_all [f1; f2] (robot_motion_timeout r) "Failed to move to joints in sync.".

Definition move_to_joints (target_joints : list Joint) (speed : float) (safe : bool)
    (arm_id : option string) : M unit :=
  assert ((0 <=? speed)%float && (speed <=? 1)%float);;
  with_move_lock
    (r ← get_robot;
     n ← lift (speed_number r speed);
     set_v n;;
     match arm_id with
     | None =>
         let left := filter (λ j, endswith (name j) "_l" = true) target_joints in
         let right := filter (λ j, endswith (name j) "_r" = true) target_joints in
         goto_joints_sync left right
     | Some _ =>
         arm ← _arm_by_name arm_id;
         YuMiArm.goto_joints arm target_joints
     end).

Definition move_both_arms (left_pose right_pose : nat) (speed : float) : M unit :=
  assert ((0 <=? speed)%float && (speed <=? 1)%float);;
  r ← get_robot;
  n ← lift (speed_number r speed);
  set_v n;;
  with_move_lock
    (new_event;;
     log EvSupervise;;
     rel_l ← make_pose_rel_obj left_pose;
     f1 ← submit (YuMiArm.goto_pose_sync LEFT rel_l);
     rel_r ← make_pose_rel_obj right_pose;
     f2 ← submit (YuMiArm.goto_pose_sync RIGHT rel_r);
     s ← next_schedule;
     match as_completed [inl <$> (RWS.failure_exc <$> sup_failure s); Some f1; Some f2]
             [] (order s) with
     | inl e =>
         if is_YumiException e then evt_set;; raise e
         else if is_ProgramStopped e then
           recover;; raise (YumiException "Impossible motion.")
         else raise e
     | inr _ => evt_set
     end).

(** [[f.result(timeout=...) for f in futures]]: the results in the order
    of the list; a future that is not among those that complete within the
    wait raises the time-out. *)
Fixpoint results_in_order {A} (futures : list (Exc + A)) (i : nat) (completed : list nat)
    : Exc + list A :=
  match futures with
  | [] => inr []
  | f :: rest =>
      if bool_decide (i ∈ completed) then
        a ← f; k ← results_in_order rest (S i) completed; mret (a :: k)
      else inl TimeoutError
  end.

Definition robot_joints (include_gripper : bool) (arm_id : option string)
    : M (list Joint) :=
  match arm_id with
  | None =>
      f1 ← submit (YuMiArm.joints LEFT include_gripper);
      f2 ← submit (YuMiArm.joints RIGHT include_gripper);
      s ← next_schedule;
      match results_in_order [f1; f2] 0 (order s) with
      | inl TimeoutError => raise (YuMiCommException "Failed to get joints.")
      | inl e => raise e
      | inr [state0; state1] => mret (state0 ++ state1)
      | inr _ => raise IndexError
      end
  | Some _ =>
      arm ← _arm_by_name arm_id;
      YuMiArm.joints arm include_gripper
  end.

Definition inverse_kinematics (end_effector_id : string) (pose : nat)
    (arm_id : option string) : M (list Joint) :=
  arm ← _arm_by_name arm_id;
  rel ← make_pose_rel_obj pose;
  YuMiArm.ik arm rel.

Definition move_arm (arm : YumiArms) (pose : nat) (speed : float) (linear : bool) : M unit :=
  assert ((0 <=? speed)%float && (speed <=? 1)%float);;
  move_to_pose "" pose speed false linear (Some (YumiArms_value arm)).

End WithExtern.

(** The actions [close_gripper] and [open_gripper] of the robot: inputs
    are fractions of the maximal force and width. *)
Definition close_gripper (arm : YumiArms) (force width : float) : M unit :=
  assert ((0 <=? force)%float && (force <=? 1)%float);;
  assert ((0 <=? width)%float && (width <=? 1)%float);;
  a ← _arm_by_name (Some (YumiArms_value arm));
  force ← lift (float_mul_num force (PyInt MAX_GRIPPER_FORCE));
  YuMiArm.close_gripper a force (PyFloat (width * MAX_GRIPPER_WIDTH)) false.

Definition open_gripper (arm : YumiArms) (force width : float) : M unit :=
  assert ((0 <=? force)%float && (force <=? 1)%float);;
  assert ((0 <=? width)%float && (width <=? 1)%float);;
  a ← _arm_by_name (Some (YumiArms_value arm));
  force ← lift (float_mul_num force (PyInt MAX_GRIPPER_FORCE));
  YuMiArm.open_gripper a (Some force) (Some (PyFloat (width * MAX_GRIPPER_WIDTH))) false.

Definition open_grippers : M unit :=
  YuMiArm.open_gripper LEFT None None false;;
  YuMiArm.open_gripper RIGHT None None false.

Definition calibrate_grippers : M unit :=
  r ← get_robot;
  futures ← mapM (λ arm, submit (YuMiArm.calibrate_gripper arm None None None true)) arms;
  wait_for_all futures (robot_motion_timeout r) "Failed to calibrate grippers.".

Definition get_hand_teaching_mode (arm_id : option string) : M bool :=
  arm ← _arm_by_name arm_id;
  YuMiArm.lead_through arm.

Definition set_hand_teaching_mode (enabled : bool) (arm_id : option string) : M unit :=
  arm ← _arm_by_name arm_id;
  YuMiArm.set_lead_through arm enabled.

Definition get_arm_ids : gset string := dom _mapping.

Definition get_end_effectors_ids (arm_id : option string) : M (gset string) :=
  _arm_by_name arm_id;;
  mret {["default"]}.

Definition grippers (arm_id : option string) : gset string := dom _mapping.

Definition suctions (arm_id : option string) : gset string := ∅.

Section Composite.

Context {ext : Extern}.

(** The composite actions [pick] and [place]; the grippers are opened and
    closed with the default arguments of the robot's actions. *)
Definition pick (arm : YumiArms) (pose : nat)
    (approach_speed pick_speed vertical_offset : float) : M unit :=
  pre_pick_pose ← deepcopy pose;
  position_iadd_z pre_pick_pose vertical_offset;;
  move_arm arm pre_pick_pose approach_speed true;;
  open_gripper arm 1 1;;
  move_arm arm pose pick_speed true;;
  close_gripper arm 1 0;;
  move_arm arm pre_pick_pose pick_speed true.

Definition place (arm : YumiArms) (pose : nat)
    (approach_speed place_speed vertical_offset : float) : M unit :=
  pre_place_pose ← deepcopy pose;
  position_iadd_z pre_place_pose vertical_offset;;
  move_arm arm pre_place_pose approach_speed true;;
  move_arm arm pose place_speed true;;
  open_gripper arm 1 1;;
  move_arm arm pre_place_pose place_speed true;;
  close_gripper arm 1 0.

End Composite.

End YuMi.

(** ** A connected robot and sample environments *)

Module Sample.

(** Modelled from the spec: the helpers of arcor2.data.common and
    arcor2.transformations are not under src/.  This instance serves the
    examples only: the robot stands at the origin of the world frame, so
    that a pose relative to the robot is the pose itself; the quaternion
    is laid out as in the spec's pose body ("x y z qx qy qz qw"); only
    integer tokens are read back as floats. *)
#[export] Instance extern : Extern := {|
  float_of_string s :=
    match py_int s with
    | Some n => match float_of_int n with inr f => Some f | inl _ => None end
    | None => None
    end;
  as_float_array o := [qx o; qy o; qz o; qw o];
  from_float_array q :=
    match q with
    | [a; b; c; d] => inr (mkOrientation a b c d)
    | _ => inl (ValueError "quaternion needs four components")
    end;
  make_pose_rel base target := target;
  pose_delta cur target :=
    (mkPosition (x (position target) - x (position cur))
                (y (position target) - y (position cur))
                (z (position target) - z (position cur)),
     [0%float; 0%float; 0%float]) |}.

Definition arm (nm : string) (port : Z) (s : nat) : ArmState :=
  mkArmState nm "192.168.104.101" port 4096 20 5 s (s + 1) (s + 2) [s; s + 1; s + 2]%nat.

(** The robot as its constructor leaves it: both sessions connected on
    ports 5000.. and 5001.., the speed cache unset, the world pose at
    object 2. *)
Definition robot0 : RobotState :=
  mkRobotState (mkYumiSettings "192.168.104.101" MAX_TCP_SPEED false) 2 None
    (arm "left" 5000 0) (arm "right" 5001 3) 20 5.

Definition heap0 : list PyObj :=
  [OPosition (mkPosition 0 0 0); OOrientation (mkOrientation 0 0 0 1); OPose 0 1].

Definition sockets0 : list Socket :=
  [mkSocket 5000 true; mkSocket 5002 true; mkSocket 5004 true;
   mkSocket 5001 true; mkSocket 5003 true; mkSocket 5005 true].

Definition world0 (e : Env) : World :=
  mkWorld e heap0 sockets0 robot0 false false 0 0 0 0 [].

(** The controller accepts every command, every RWS call and connection
    succeeds, futures complete in the order of their submission and the
    program keeps running. *)
Definition ok_reply (request : string) : WireReply :=
  Received (format_int (default 0 (py_int (default "" (split_ws request !! 0%nat)))) +:+ " 1 ").

Definition calm : Env :=
  mkEnv (λ _, ok_reply) (λ _, RwsDone) (λ _, Connected)
        (λ _, mkSchedule [0; 1; 2]%nat None).

End Sample.

(** ** Sample executions *)

Module Scenario.

Import Sample.

(** A target pose at objects 3, 4 and 5 of the store. *)
Definition target : list PyObj :=
  [OPosition (mkPosition 0.25 0 0.5); OOrientation (mkOrientation 0 0 0 1); OPose 3 4].

Definition world1 (e : Env) : World := set_heap (heap0 ++ target) (world0 e).

(** The program stops during the motion: the second wait of the call (the
    first one is the wait of [set_v]) sees the supervisor complete first,
    with the program-stopped condition. *)
Definition stopping : Env :=
  mkEnv (λ _, ok_reply) (λ _, RwsDone) (λ _, Connected)
        (λ n, match n with
              | 1%nat => mkSchedule [0; 1; 2]%nat (Some SupStopped)
              | _ => mkSchedule [0; 1; 2]%nat None
              end).

(** Seven joints that all bear the name of the first joint of the left
    arm, the seven joints of the left arm out of order, and seven joints
    of which the first is named without underscores. *)
Definition same_joint : list Joint := replicate 7 (mkJoint "yumi_joint_1_l" 0).

Definition shuffled : list Joint :=
  [mkJoint "yumi_joint_3_l" 0.5; mkJoint "yumi_joint_1_l" 0; mkJoint "yumi_joint_7_l" 0;
   mkJoint "yumi_joint_2_l" (-1); mkJoint "yumi_joint_5_l" 0; mkJoint "yumi_joint_4_l" 0;
   mkJoint "yumi_joint_6_l" 0].

Definition with_elbow : list Joint :=
  mkJoint "elbow" 0 :: replicate 6 (mkJoint "yumi_joint_1_l" 0).

(** The controller refuses every command. *)
Definition refusing : Env :=
  mkEnv (λ _ _, Received "1 0 unreachable pose") (λ _, RwsDone) (λ _, Connected)
        (λ _, mkSchedule [0; 1; 2]%nat None).

End Scenario.

(** * Properties of worlds, traces and wire fields *)

(** The robot object is left as it is. *)
Definition same_robot : relation World := λ w w', robot w' = robot w.

(** Events that satisfy [P] are appended to the trace, and the mutex is
    left as it is. *)
Definition emits (P : Event → Prop) : relation World := λ w w',
  ∃ tr, trace w' = trace w ++ tr ∧ Forall P tr ∧ move_lock w' = move_lock w.

(** The events of the motion mutex, and the start of a recovery. *)
Definition lock_event (e : Event) : Prop := e = EvAcquire ∨ e = EvRelease.
Definition not_lock (e : Event) : Prop := e ≠ EvAcquire ∧ e ≠ EvRelease.
Definition quiet (e : Event) : Prop := not_lock e ∧ e ≠ EvRecover.

(** Every recovery in the trace starts while the mutex is held; [held]
    tells whether it is held before the trace. *)
Fixpoint recover_locked (held : bool) (tr : list Event) : bool :=
  match tr with
  | [] => true
  | EvAcquire :: rest => recover_locked true rest
  | EvRelease :: rest => recover_locked false rest
  | EvRecover :: rest => held && recover_locked held rest
  | _ :: rest => recover_locked held rest
  end.

(** Every recovery in the trace starts while the mutex is free. *)
Fixpoint recover_unlocked (held : bool) (tr : list Event) : bool :=
  match tr with
  | [] => true
  | EvAcquire :: rest => recover_unlocked true rest
  | EvRelease :: rest => recover_unlocked false rest
  | EvRecover :: rest => negb held && recover_unlocked held rest
  | _ :: rest => recover_unlocked held rest
  end.

(** The claim of C2 as the specification words it: every recovery in the
    trace of a motion starts after the motion mutex has been released. *)
Definition recover_after_release (tr : list Event) : Prop :=
  recover_unlocked false tr = true.

(** The order of the joints by their index. *)
Definition key_le (a b : Z * Joint) : Prop := a.1 ≤ b.1.

(** What a joint name that passes the validation looks like. *)
Definition valid_joint_name (side : string) (j : Joint) : Prop :=
  ∃ s i, split_on "_" (name j) = ["yumi"; "joint"; s; side]
         ∧ py_int s = Some i ∧ 1 ≤ i ≤ 7.

(** The range test of [close_gripper]. *)
Definition out_of_range (force width : pynum) : bool :=
  num_ltb force (PyInt 0) || num_ltb (PyInt MAX_GRIPPER_FORCE) force
  || num_ltb width (PyInt 0) || num_ltb (PyFloat MAX_GRIPPER_WIDTH) width.

(** The trace only grows. *)
Definition grows : relation World := λ w w', ∃ tr, trace w' = trace w ++ tr.

(** A socket that can take a request: it is open and the send succeeds. *)
Definition can_send (sock : nat) (k : nat) (request : string) (w : World) : Prop :=
  ∃ s, sockets w !! sock = Some s ∧ sock_open s = true
       ∧ wire_reply (env w) (sent w + k) request ≠ SendFails.

(** The world once a request has gone out. *)
Definition sent_on (sock : nat) (request : string) (w : World) : World :=
  set_trace (trace w ++ [EvSend sock request]) (set_sent (S (sent w)) w).

(** The world in which the body of [with self._move_lock] starts. *)
Definition acquired (w : World) : World :=
  set_trace (trace w ++ [EvAcquire]) (set_move_lock true w).

(** Every object of the store is left as it is; new objects may appear. *)
Definition keeps_objects : relation World := λ w w', heap w `prefix_of` heap w'.

(** The tuple [_sockets] of each arm is left as it is. *)
Definition same_socket_tuples : relation World := λ w w',
  ∀ a, _sockets (YuMiArm.arm_of a w') = _sockets (YuMiArm.arm_of a w).

(** Strings of decimal digits. *)
Fixpoint all_digits (s : string) : bool :=
  match s with
  | EmptyString => true
  | String a t => is_digit a && all_digits t
  end.

(** Strings without white space; the parts that [str.split()] returns. *)
Fixpoint no_space (s : string) : bool :=
  match s with
  | EmptyString => true
  | String a t => negb (is_space a) && no_space t
  end.

Definition is_token (s : string) : Prop := s ≠ "" ∧ no_space s = true.

(** * Reasoning about driver code *)

(** ** Relations that every step of a computation preserves *)

Definition preserves (R : relation World) {A} (m : M A) : Prop :=
  ∀ w, R w (m w).2.

(** Computations that only read the world. *)
Definition reads {A} (m : M A) : Prop := ∀ w, (m w).2 = w.

Section Combinators.

Context (R : relation World) `{!PreOrder R}.

Lemma reads_preserves {A} (m : M A) : reads m → preserves R m.
Proof. intros Hm w. rewrite Hm. reflexivity. Qed.

Lemma preserves_ret {A} (a : A) : preserves R (mret a).
Proof. intros w. reflexivity. Qed.

Lemma preserves_raise {A} (e : Exc) : preserves R (raise (A:=A) e).
Proof. intros w. reflexivity. Qed.

Lemma preserves_lift {A} (r : Exc + A) : preserves R (lift r).
Proof. intros w. reflexivity. Qed.

Lemma preserves_assert (b : bool) : preserves R (assert b).
Proof. destruct b; intros w; reflexivity. Qed.

Lemma preserves_bind {A B} (m : M A) (f : A → M B) :
  preserves R m → (∀ a, preserves R (f a)) → preserves R (m ≫= f).
Proof.
  intros Hm Hf w. unfold mbind, M_bind.
  specialize (Hm w). destruct (m w) as [[e|a] w1]; simpl in *; [done|].
  etransitivity; [exact Hm | apply Hf].
Qed.

Lemma preserves_try_except {A} (m : M A) (h : Exc → M A) :
  preserves R m → (∀ e, preserves R (h e)) → preserves R (try_except m h).
Proof.
  intros Hm Hh w. unfold try_except.
  specialize (Hm w). destruct (m w) as [[e|a] w1]; simpl in *; [|done].
  etransitivity; [exact Hm | apply Hh].
Qed.

Lemma preserves_submit {A} (m : M A) : preserves R m → preserves R (submit m).
Proof.
  intros Hm w. unfold submit. specialize (Hm w). by destruct (m w) as [r w1].
Qed.

Lemma preserves_for_each {A} (body : A → M unit) (l : list A) :
  (∀ a, preserves R (body a)) → preserves R (for_each body l).
Proof.
  intros Hb. induction l as [|a l IH]; simpl.
  - apply preserves_ret.
  - apply preserves_bind; [apply Hb | intros _; exact IH].
Qed.

Lemma preserves_mapM {A B} (f : A → M B) (l : list A) :
  (∀ a, preserves R (f a)) → preserves R (mapM f l).
Proof.
  intros Hf. induction l as [|a l IH]; simpl.
  - apply preserves_ret.
  - apply preserves_bind; [apply Hf | intros b].
    apply preserves_bind; [exact IH | intros k; apply preserves_ret].
Qed.

End Combinators.

Create HintDb pres.

(** One step of a preservation proof: split the computation at its head. *)
Ltac pres_step :=
  match goal with
  | |- PreOrder _ => exact _
  | |- ∀ _, _ => intros ?
  | |- preserves _ (let _ := _ in _) => cbv zeta
  | |- preserves _ (mret _) => apply preserves_ret
  | |- preserves _ (raise _) => apply preserves_raise
  | |- preserves _ (lift _) => apply preserves_lift
  | |- preserves _ (assert _) => apply preserves_assert
  | |- preserves _ (_ ≫= _) => apply preserves_bind
  | |- preserves _ (try_except _ _) => apply preserves_try_except
  | |- preserves _ (submit _) => apply preserves_submit
  | |- preserves _ (for_each _ _) => apply preserves_for_each
  | |- preserves _ (mapM _ _) => apply preserves_mapM
  | |- preserves _ (match ?x with _ => _ end) => destruct x
  end.

Ltac pres := repeat first [ pres_step | solve [eauto with pres] ].

(** Reading the world. *)
Lemma reads_get_self self : reads (YuMiArm.get_self self).
Proof. by intros w. Qed.

Lemma reads_get_robot : reads YuMi.get_robot.
Proof. by intros w. Qed.

Lemma reads_read_pose l : reads (read_pose l).
Proof. intros w. unfold read_pose. by repeat case_match. Qed.

Lemma reads_arm_by_name n : reads (YuMi._arm_by_name n).
Proof. intros w. unfold YuMi._arm_by_name. by repeat case_match. Qed.

(** Equations of the monad. *)
Lemma bind_world {A B} (m : M A) (f : A → M B) w :
  (m ≫= f) w = match m w with
               | (inr a, w') => f a w'
               | (inl e, w') => (inl e, w')
               end.
Proof. reflexivity. Qed.

Lemma assert_bind {A} (b : bool) (m : M A) w :
  (assert b;; m) w = if b then m w else (inl AssertionError, w).
Proof. by destruct b. Qed.

Lemma bind_assoc {A B C} (m : M A) (f : A → M B) (g : B → M C) w :
  ((m ≫= f) ≫= g) w = (m ≫= λ a, f a ≫= g) w.
Proof. rewrite !bind_world. by destruct (m w) as [[e|a] w']. Qed.

(** ** Code of the arm session, over any relation that its primitive
    steps preserve *)

Section ArmLevel.

Context {ext : Extern}.
Context (R : relation World) `{!PreOrder R}.
Hypothesis R_send : ∀ s p, preserves R (YumiSocket.send_request s p).
Hypothesis R_pose_body : ∀ l, preserves R (YuMiArm._get_pose_body l).
Hypothesis R_new_pose : ∀ p, preserves R (new_pose p).

Local Hint Resolve R_send R_pose_body R_new_pose : pres.
Local Hint Extern 1 (preserves _ (YuMiArm.get_self _)) =>
  apply reads_preserves; [exact _ | apply reads_get_self] : pres.
Local Hint Extern 1 (preserves _ (read_pose _)) =>
  apply reads_preserves; [exact _ | apply reads_read_pose] : pres.

Lemma preserves_request self req timeout socket :
  preserves R (YuMiArm._request self req timeout socket).
Proof. unfold YuMiArm._request. pres. Qed.
Local Hint Resolve preserves_request : pres.

Lemma preserves_set_speed self data : preserves R (YuMiArm.set_speed self data).
Proof. unfold YuMiArm.set_speed. pres. Qed.

Lemma preserves_set_zone self data : preserves R (YuMiArm.set_zone self data).
Proof. unfold YuMiArm.set_zone. pres. Qed.

Lemma preserves_set_conf self data : preserves R (YuMiArm.set_conf self data).
Proof. unfold YuMiArm.set_conf. pres. Qed.

Lemma preserves_set_tool self l : preserves R (YuMiArm.set_tool self l).
Proof. unfold YuMiArm.set_tool. pres. Qed.

Lemma preserves_buffer_add_single self l : preserves R (YuMiArm.buffer_add_single self l).
Proof. unfold YuMiArm.buffer_add_single. pres. Qed.

Lemma preserves_goto_pose_sync self l : preserves R (YuMiArm.goto_pose_sync self l).
Proof. unfold YuMiArm.goto_pose_sync. pres. Qed.

Lemma preserves_is_pose_reachable self l : preserves R (YuMiArm.is_pose_reachable self l).
Proof. unfold YuMiArm.is_pose_reachable, YuMiArm.bool_of_message. pres. Qed.

Lemma preserves_response_to_joints self res :
  preserves R (YuMiArm._response_to_joints self res).
Proof. unfold YuMiArm._response_to_joints. pres. Qed.
Local Hint Resolve preserves_response_to_joints : pres.

Lemma preserves_ik self l : preserves R (YuMiArm.ik self l).
Proof. unfold YuMiArm.ik, YuMiArm.as_kinematics. pres. Qed.

Lemma preserves_get_pose self : preserves R (YuMiArm.get_pose self).
Proof. unfold YuMiArm.get_pose. pres. Qed.
Local Hint Resolve preserves_get_pose : pres.

Lemma preserves_goto_pose_delta self t r : preserves R (YuMiArm.goto_pose_delta self t r).
Proof. unfold YuMiArm.goto_pose_delta. pres. Qed.
Local Hint Resolve preserves_goto_pose_delta : pres.

Lemma preserves_goto_pose self l linear relative :
  preserves R (YuMiArm.goto_pose self l linear relative).
Proof. unfold YuMiArm.goto_pose. pres. Qed.

Lemma preserves_check_and_sort self joints :
  preserves R (YuMiArm._check_and_sort_joints self joints).
Proof. unfold YuMiArm._check_and_sort_joints. pres. Qed.
Local Hint Resolve preserves_check_and_sort : pres.

Lemma preserves_goto_joints self joints : preserves R (YuMiArm.goto_joints self joints).
Proof. unfold YuMiArm.goto_joints. pres. Qed.

Lemma preserves_goto_joints_sync self joints :
  preserves R (YuMiArm.goto_joints_sync self joints).
Proof. unfold YuMiArm.goto_joints_sync. pres. Qed.

Lemma preserves_fk self joints : preserves R (YuMiArm.fk self joints).
Proof. unfold YuMiArm.fk, YuMiArm.as_kinematics. pres. Qed.

End ArmLevel.

(** ** Closing and reopening the sockets of a session *)

Section ReconnectLevel.

Context (R : relation World) `{!PreOrder R}.
Hypothesis R_connect : ∀ ip port, preserves R (YumiSocket.connect ip port).
Hypothesis R_close : ∀ s, preserves R (YumiSocket.close s).
Hypothesis R_put_self : ∀ self a, preserves R (YuMiArm.put_self self a).

Local Hint Resolve R_connect R_close R_put_self : pres.
Local Hint Extern 1 (preserves _ (YuMiArm.get_self _)) =>
  apply reads_preserves; [exact _ | apply reads_get_self] : pres.

Lemma preserves_terminate self : preserves R (YuMiArm.terminate self).
Proof. unfold YuMiArm.terminate. pres. Qed.
Local Hint Resolve preserves_terminate : pres.

Lemma preserves_reconnect self : preserves R (YuMiArm.reconnect self).
Proof. unfold YuMiArm.reconnect. pres. Qed.

End ReconnectLevel.

(** ** Code of the coordinator, over any relation that its primitive
    steps preserve *)

Section RobotLevel.

Context {ext : Extern}.
Context (R : relation World) `{!PreOrder R}.
Hypothesis R_send : ∀ s p, preserves R (YumiSocket.send_request s p).
Hypothesis R_pose_body : ∀ l, preserves R (YuMiArm._get_pose_body l).
Hypothesis R_new_pose : ∀ p, preserves R (new_pose p).
Hypothesis R_schedule : preserves R YuMi.next_schedule.

Local Hint Resolve R_send R_pose_body R_new_pose R_schedule : pres.
Local Hint Extern 1 (preserves _ (YuMiArm.get_self _)) =>
  apply reads_preserves; [exact _ | apply reads_get_self] : pres.
Local Hint Extern 1 (preserves _ YuMi.get_robot) =>
  apply reads_preserves; [exact _ | apply reads_get_robot] : pres.
Local Hint Extern 1 (preserves _ (read_pose _)) =>
  apply reads_preserves; [exact _ | apply reads_read_pose] : pres.
Local Hint Extern 1 (preserves _ (YuMi._arm_by_name _)) =>
  apply reads_preserves; [exact _ | apply reads_arm_by_name] : pres.
Local Hint Extern 2 (preserves _ (YuMiArm.set_speed _ _)) =>
  apply preserves_set_speed : pres.
Local Hint Extern 2 (preserves _ (YuMiArm.set_zone _ _)) =>
  apply preserves_set_zone : pres.
Local Hint Extern 2 (preserves _ (YuMiArm.set_conf _ _)) =>
  apply preserves_set_conf : pres.
Local Hint Extern 2 (preserves _ (YuMiArm.set_tool _ _)) =>
  apply preserves_set_tool : pres.
Local Hint Extern 2 (preserves _ (YuMiArm.goto_pose _ _ _ _)) =>
  apply preserves_goto_pose : pres.
Local Hint Extern 2 (preserves _ (YuMiArm.goto_pose_sync _ _)) =>
  apply preserves_goto_pose_sync : pres.
Local Hint Extern 2 (preserves _ (YuMiArm.goto_joints _ _)) =>
  apply preserves_goto_joints : pres.
Local Hint Extern 2 (preserves _ (YuMiArm.goto_joints_sync _ _)) =>
  apply preserves_goto_joints_sync : pres.

Lemma preserves_wait_for_all futures timeout msg :
  preserves R (YuMi.wait_for_all futures timeout msg).
Proof. unfold YuMi.wait_for_all. pres. Qed.
Local Hint Resolve preserves_wait_for_all : pres.

Lemma preserves_set_v n : preserves R (YuMi.set_v n).
Proof. unfold YuMi.set_v. pres. Qed.

Lemma preserves_set_z nm : preserves R (YuMi.set_z nm).
Proof. unfold YuMi.set_z. pres. Qed.

Lemma preserves_robot_set_tool l : preserves R (YuMi.set_tool l).
Proof. unfold YuMi.set_tool. pres. Qed.

Lemma preserves_default_configuration : preserves R YuMi.default_configuration.
Proof.
  unfold YuMi.default_configuration. pres.
  - apply preserves_robot_set_tool.
  - apply preserves_set_z.
Qed.

Lemma preserves_make_pose_rel_obj l : preserves R (YuMi.make_pose_rel_obj l).
Proof. unfold YuMi.make_pose_rel_obj. pres. Qed.

Lemma preserves_goto_joints_sync_pair l r : preserves R (YuMi.goto_joints_sync l r).
Proof. unfold YuMi.goto_joints_sync. pres. Qed.

(** The code that [move_to_joints] runs once the speed is set. *)
Lemma preserves_move_to_joints_tail target_joints arm_id :
  preserves R
    (match arm_id with
     | None =>
         let left := filter (λ j, endswith (name j) "_l" = true) target_joints in
         let right := filter (λ j, endswith (name j) "_r" = true) target_joints in
         YuMi.goto_joints_sync left right
     | Some _ =>
         arm ← YuMi._arm_by_name arm_id;
         YuMiArm.goto_joints arm target_joints
     end).
Proof. pres. apply preserves_goto_joints_sync_pair. Qed.

(** The steps that only a recovery and the completion protocol take. *)
Hypothesis R_reconnect : ∀ self, preserves R (YuMiArm.reconnect self).
Hypothesis R_rws : ∀ c, preserves R (RWS.call c).
Hypothesis R_log : ∀ e, e ≠ EvAcquire → e ≠ EvRelease → preserves R (log e).
Hypothesis R_cancel_event : ∀ b, preserves R (modify (set_cancel_event b)).
Hypothesis R_speed_cache : preserves R (YuMi.set_speed_cache None).

Local Hint Resolve R_reconnect R_rws R_cancel_event R_speed_cache : pres.
Local Hint Extern 1 (preserves _ (log _)) => apply R_log; discriminate : pres.

Local Hint Resolve preserves_default_configuration : pres.

Lemma preserves_recover : preserves R YuMi.recover.
Proof.
  unfold YuMi.recover, YuMi.best_effort, RWS.stop_RAPID, RWS.reset_pp, RWS.start_RAPID.
  pres.
Qed.
Local Hint Resolve preserves_recover : pres.

Lemma preserves_evt_set : preserves R YuMi.evt_set.
Proof. unfold YuMi.evt_set. pres. Qed.
Local Hint Resolve preserves_evt_set : pres.

Lemma preserves_completion_protocol completed :
  preserves R (YuMi.completion_protocol completed).
Proof.
  induction completed as [|f rest IH]; simpl; pres.
Qed.

(** The code that [move_to_pose] runs once the speed is set. *)
Lemma preserves_move_to_pose_tail target_pose linear arm_id :
  preserves R
    (YuMi.new_event;;
     log EvSupervise;;
     arm ← YuMi._arm_by_name arm_id;
     rel ← YuMi.make_pose_rel_obj target_pose;
     motion ← submit (YuMiArm.goto_pose arm rel linear false);
     s ← YuMi.next_schedule;
     YuMi.completion_protocol (YuMi.completion_order s motion)).
Proof.
  unfold YuMi.new_event. pres.
  - apply preserves_make_pose_rel_obj.
  - apply preserves_completion_protocol.
Qed.

(** The code that [move_to_pose] runs under the motion mutex. *)
Lemma preserves_move_to_pose_body target_pose speed linear arm_id :
  preserves R
    (r ← YuMi.get_robot;
     n ← lift (YuMi.speed_number r speed);
     YuMi.set_v n;;
     YuMi.new_event;;
     log EvSupervise;;
     arm ← YuMi._arm_by_name arm_id;
     rel ← YuMi.make_pose_rel_obj target_pose;
     motion ← submit (YuMiArm.goto_pose arm rel linear false);
     s ← YuMi.next_schedule;
     YuMi.completion_protocol (YuMi.completion_order s motion)).
Proof.
  apply preserves_bind;
    [exact _ | apply reads_preserves; [exact _ | apply reads_get_robot] | intros r].
  apply preserves_bind; [exact _ | apply preserves_lift; exact _ | intros n].
  apply preserves_bind; [exact _ | apply preserves_set_v | intros _].
  apply preserves_move_to_pose_tail.
Qed.

(** The code that [move_both_arms] runs under the motion mutex. *)
Lemma preserves_move_both_arms_body left_pose right_pose :
  preserves R
    (YuMi.new_event;;
     log EvSupervise;;
     rel_l ← YuMi.make_pose_rel_obj left_pose;
     f1 ← submit (YuMiArm.goto_pose_sync LEFT rel_l);
     rel_r ← YuMi.make_pose_rel_obj right_pose;
     f2 ← submit (YuMiArm.goto_pose_sync RIGHT rel_r);
     s ← YuMi.next_schedule;
     match YuMi.as_completed
             [inl <$> (RWS.failure_exc <$> sup_failure s); Some f1; Some f2]
             [] (order s) with
     | inl e =>
         if is_YumiException e then YuMi.evt_set;; raise e
         else if is_ProgramStopped e then
           YuMi.recover;; raise (YumiException "Impossible motion.")
         else raise e
     | inr _ => YuMi.evt_set
     end).
Proof.
  unfold YuMi.new_event. pres; apply preserves_make_pose_rel_obj.
Qed.

End RobotLevel.

(** ** The robot object is left as it is *)

#[global] Instance same_robot_preorder : PreOrder same_robot.
Proof.
  split; [by intros w | intros w1 w2 w3 H12 H23].
  unfold same_robot in *. congruence.
Qed.

Lemma same_robot_send s p : preserves same_robot (YumiSocket.send_request s p).
Proof.
  intros w. unfold YumiSocket.send_request, same_robot.
  by repeat case_match.
Qed.

Lemma same_robot_schedule : preserves same_robot YuMi.next_schedule.
Proof. by intros w. Qed.

(** ** Events are only appended and the mutex is left as it is *)

#[global] Instance emits_preorder P : PreOrder (emits P).
Proof.
  split.
  - intros w. exists []. by rewrite app_nil_r.
  - intros w1 w2 w3 (t1 & E1 & F1 & L1) (t2 & E2 & F2 & L2).
    exists (t1 ++ t2). rewrite E2, E1, <- app_assoc.
    split; [done|]. split; [by apply Forall_app | congruence].
Qed.

Lemma emits_none P w w' :
  trace w' = trace w → move_lock w' = move_lock w → emits P w w'.
Proof. intros Ht Hl. exists []. by rewrite app_nil_r. Qed.

Lemma emits_one P e w w' :
  P e → trace w' = trace w ++ [e] → move_lock w' = move_lock w → emits P w w'.
Proof. intros He Ht Hl. exists [e]. split; [done|]. split; [by constructor | done]. Qed.

Section Emits.

Context (P : Event → Prop).

Lemma emits_send s p :
  (∀ r, P (EvSend s r)) → preserves (emits P) (YumiSocket.send_request s p).
Proof.
  intros HP w. unfold YumiSocket.send_request.
  repeat case_match; simpl;
    first [ by apply emits_none | by eapply emits_one ].
Qed.

Lemma emits_connect ip port :
  (∀ s, P (EvConnect s port)) → preserves (emits P) (YumiSocket.connect ip port).
Proof.
  intros HP w. unfold YumiSocket.connect.
  repeat case_match; simpl;
    first [ by apply emits_none | by eapply emits_one ].
Qed.

Lemma emits_close s : P (EvClose s) → preserves (emits P) (YumiSocket.close s).
Proof.
  intros HP w. unfold YumiSocket.close.
  repeat case_match; simpl;
    first [ by apply emits_none | by eapply emits_one ].
Qed.

Lemma emits_rws c : P (EvRws c) → preserves (emits P) (RWS.call c).
Proof.
  intros HP w. unfold RWS.call.
  repeat case_match; simpl; by eapply emits_one.
Qed.

Lemma emits_log e : P e → preserves (emits P) (log e).
Proof. intros HP w. by eapply emits_one. Qed.

Lemma emits_schedule : preserves (emits P) YuMi.next_schedule.
Proof. intros w. by apply emits_none. Qed.

Lemma emits_put_self self a : preserves (emits P) (YuMiArm.put_self self a).
Proof. intros w. by apply emits_none. Qed.

Lemma emits_cancel_event b : preserves (emits P) (modify (set_cancel_event b)).
Proof. intros w. by apply emits_none. Qed.

Lemma emits_speed_cache v : preserves (emits P) (YuMi.set_speed_cache v).
Proof. intros w. by apply emits_none. Qed.

Lemma emits_alloc o : preserves (emits P) (alloc o).
Proof. intros w. by apply emits_none. Qed.

Lemma emits_new_pose p : preserves (emits P) (new_pose p).
Proof. unfold new_pose. pres; apply emits_alloc. Qed.

Lemma emits_position_imul l k : preserves (emits P) (position_imul l k).
Proof.
  intros w. unfold position_imul. repeat case_match; by apply emits_none.
Qed.

Lemma emits_pose_body {ext : Extern} l : preserves (emits P) (YuMiArm._get_pose_body l).
Proof.
  unfold YuMiArm._get_pose_body, deepcopy. pres;
    first [ apply emits_new_pose | apply emits_position_imul
          | apply reads_preserves; [exact _ | apply reads_read_pose] ].
Qed.

Lemma emits_reconnect self :
  (∀ s port, P (EvConnect s port)) → (∀ s, P (EvClose s)) →
  preserves (emits P) (YuMiArm.reconnect self).
Proof.
  intros Hc Hx. apply preserves_reconnect; try exact _; intros.
  - by apply emits_connect.
  - by apply emits_close.
  - apply emits_put_self.
Qed.

End Emits.

Lemma recover_locked_quiet held tr rest :
  Forall quiet tr → recover_locked held (tr ++ rest) = recover_locked held rest.
Proof.
  induction 1 as [|e tr [[Ha Hr] Hc] _ IH]; [done|].
  simpl. by destruct e.
Qed.

Lemma recover_locked_held tr rest :
  Forall not_lock tr → recover_locked true (tr ++ rest) = recover_locked true rest.
Proof.
  induction 1 as [|e tr [Ha Hr] _ IH]; [done|].
  simpl. by destruct e.
Qed.

(** What [with self._move_lock] adds around its body. *)
Lemma with_move_lock_trace {A} (body : M A) w :
  move_lock w = false →
  preserves (emits not_lock) body →
  ∃ tr, trace (with_move_lock body w).2 = trace w ++ EvAcquire :: tr ++ [EvRelease]
        ∧ Forall not_lock tr
        ∧ move_lock (with_move_lock body w).2 = false.
Proof.
  intros Hfree Hbody. unfold with_move_lock. rewrite Hfree.
  destruct (Hbody (set_trace (trace w ++ [EvAcquire]) (set_move_lock true w)))
    as (tr & Htr & HP & _).
  destruct (body _) as [r w'] eqn:E. simpl in *.
  exists tr. rewrite Htr, <- !app_assoc. done.
Qed.

(** * The claims *)

(** C1 (speed cache).  The claim does not hold of the code: [set_v] reads
    the cached speed but never stores one.  For every speed number and
    every state, [set_v] leaves the cache as it found it; on the connected
    robot, whose cache is unset, two consecutive calls [set_v(750)] that
    both succeed issue two pairs of [set_speed] commands, and the cache is
    still unset afterwards. *)
Theorem set_v_never_caches :
  (∀ n w, _speed (robot (YuMi.set_v n w).2) = _speed (robot w))
  ∧ (let rw := (YuMi.set_v 750;; YuMi.set_v 750) (Sample.world0 Sample.calm) in
     rw.1 = inr tt
     ∧ trace rw.2 = [EvSend 0 "8 750 500 750 500 #"; EvSend 3 "8 750 500 750 500 #";
                     EvSend 0 "8 750 500 750 500 #"; EvSend 3 "8 750 500 750 500 #"]
     ∧ _speed (robot rw.2) = None).
Proof.
  split.
  - intros n w.
    pose proof (preserves_set_v same_robot same_robot_send same_robot_schedule n w) as Hr.
    unfold same_robot in Hr. by rewrite Hr.
  - cbv zeta. repeat split; vm_compute; reflexivity.
Qed.


Section C2.

Context {ext : Extern}.

Lemma emits_not_lock_body_move_to_pose target_pose speed linear arm_id :
  preserves (emits not_lock)
    (r ← YuMi.get_robot;
     n ← lift (YuMi.speed_number r speed);
     YuMi.set_v n;;
     YuMi.new_event;;
     log EvSupervise;;
     arm ← YuMi._arm_by_name arm_id;
     rel ← YuMi.make_pose_rel_obj target_pose;
     motion ← submit (YuMiArm.goto_pose arm rel linear false);
     s ← YuMi.next_schedule;
     YuMi.completion_protocol (YuMi.completion_order s motion)).
Proof.
  apply preserves_move_to_pose_body; try exact _; intros.
  - by apply emits_send.
  - apply emits_pose_body.
  - apply emits_new_pose.
  - apply emits_schedule.
  - by apply emits_reconnect.
  - by apply emits_rws.
  - by apply emits_log.
  - apply emits_cancel_event.
  - apply emits_speed_cache.
Qed.

Lemma emits_not_lock_body_move_both_arms left_pose right_pose :
  preserves (emits not_lock)
    (YuMi.new_event;;
     log EvSupervise;;
     rel_l ← YuMi.make_pose_rel_obj left_pose;
     f1 ← submit (YuMiArm.goto_pose_sync LEFT rel_l);
     rel_r ← YuMi.make_pose_rel_obj right_pose;
     f2 ← submit (YuMiArm.goto_pose_sync RIGHT rel_r);
     s ← YuMi.next_schedule;
     match YuMi.as_completed
             [inl <$> (RWS.failure_exc <$> sup_failure s); Some f1; Some f2]
             [] (order s) with
     | inl e =>
         if is_YumiException e then YuMi.evt_set;; raise e
         else if is_ProgramStopped e then
           YuMi.recover;; raise (YumiException "Impossible motion.")
         else raise e
     | inr _ => YuMi.evt_set
     end).
Proof.
  apply preserves_move_both_arms_body; try exact _; intros.
  - by apply emits_send.
  - apply emits_pose_body.
  - apply emits_new_pose.
  - apply emits_schedule.
  - by apply emits_reconnect.
  - by apply emits_rws.
  - by apply emits_log.
  - apply emits_cancel_event.
  - apply emits_speed_cache.
Qed.

Lemma emits_quiet_set_v n : preserves (emits quiet) (YuMi.set_v n).
Proof.
  apply preserves_set_v; try exact _; intros.
  - by apply emits_send.
  - apply emits_schedule.
Qed.

(** A recovery is what the protocol does first when the supervisor's
    future raises the program-stopped condition. *)
Lemma program_stopped_recovers rest w :
  ∃ tr, trace (YuMi.completion_protocol (inl ProgramStopped :: rest) w).2
        = trace w ++ EvRecover :: tr.
Proof.
  assert (Hrest : ∀ m : M unit, preserves (emits (λ _, True)) m →
            ∃ tr, trace ((log EvRecover;; m) w).2 = trace w ++ EvRecover :: tr).
  { intros m Hm. unfold mbind, M_bind. simpl.
    destruct (Hm (set_trace (trace w ++ [EvRecover]) w)) as (tr & Htr & _).
    exists tr. destruct (m _) as [[e|[]] w']; simpl in *; by rewrite Htr, <- app_assoc. }
  simpl. unfold YuMi.recover.
  match goal with
  | |- ∃ tr, trace (((log EvRecover ≫= ?k) ≫= ?k') w).2 = _ =>
      destruct (Hrest (k tt ≫= k')) as (tr & Htr)
  end.
  - unfold YuMi.best_effort, RWS.stop_RAPID, RWS.reset_pp, RWS.start_RAPID.
    pres; first
      [ by apply emits_rws | by apply emits_speed_cache
      | by apply emits_reconnect
      | apply preserves_default_configuration; try exact _; intros;
          first [ by apply emits_send | apply emits_pose_body | apply emits_new_pose
                | apply emits_schedule ] ].
  - exists tr. rewrite <- Htr. unfold mbind, M_bind. simpl.
    by repeat case_match.
Qed.


End C2.




(** ** Validation and sorting of joints *)

Lemma mapM_cons {A B} (f : A → Exc + B) a l :
  mapM f (a :: l) = match f a with
                    | inl e => inl e
                    | inr b => match mapM f l with
                               | inl e => inl e
                               | inr k => inr (b :: k)
                               end
                    end.
Proof. reflexivity. Qed.

Lemma mapM_inr_Forall2 {A B} (f : A → Exc + B) l k :
  mapM f l = inr k ↔ Forall2 (λ a b, f a = inr b) l k.
Proof.
  revert k. induction l as [|a l IH]; intros k.
  - split; [intros [= <-]; constructor | by inversion 1].
  - rewrite mapM_cons. split.
    + destruct (f a) as [e|b] eqn:Ea; [done|].
      destruct (mapM f l) as [e|k'] eqn:El; [done|].
      intros [= <-]. constructor; [done | by apply IH].
    + inversion 1 as [|? b ? k' Ha Hl]; subst. rewrite Ha.
      apply IH in Hl. by rewrite Hl.
Qed.

Lemma mapM_inl_head {A B} (f : A → Exc + B) a l e :
  f a = inl e → mapM f (a :: l) = inl e.
Proof. intros Ha. by rewrite mapM_cons, Ha. Qed.

Lemma insert_keyed_perm k j l :
  Permutation (YuMiArm.insert_keyed k j l) ((k, j) :: l).
Proof.
  induction l as [|[k' j'] l IH]; simpl; [done|].
  destruct (k <=? k'); [done|].
  rewrite IH. apply perm_swap.
Qed.

Lemma sort_keyed_perm l : Permutation (YuMiArm.sort_keyed l) l.
Proof.
  induction l as [|[k j] l IH]; simpl; [done|].
  rewrite insert_keyed_perm. by constructor.
Qed.

Lemma insert_keyed_sorted k j l :
  StronglySorted key_le l → StronglySorted key_le (YuMiArm.insert_keyed k j l).
Proof.
  induction 1 as [|[k' j'] l Hs IH Hall]; simpl.
  - repeat constructor.
  - destruct (k <=? k') eqn:Hk.
    + apply Z.leb_le in Hk. constructor; [by constructor|].
      constructor; [done|].
      eapply Forall_impl; [exact Hall|]. intros [k2 j2]. unfold key_le. simpl. lia.
    + apply Z.leb_gt in Hk. constructor; [done|].
      rewrite insert_keyed_perm. constructor; [|done].
      unfold key_le. simpl. lia.
Qed.

Lemma sort_keyed_sorted l : StronglySorted key_le (YuMiArm.sort_keyed l).
Proof.
  induction l as [|[k j] l IH]; simpl; [constructor|].
  by apply insert_keyed_sorted.
Qed.

(** [joints.sort(key=...)] rearranges the list and leaves it in the order
    of the joint indices. *)
Lemma sort_joints_spec joints sorted :
  YuMiArm.sort_joints joints = inr sorted →
  Permutation sorted joints
  ∧ ∃ keys, mapM YuMiArm.joint_index sorted = inr keys ∧ StronglySorted Z.le keys.
Proof.
  unfold YuMiArm.sort_joints, mbind, Exc_bind, mret, Exc_ret.
  destruct (mapM YuMiArm.joint_index joints) as [e|keys] eqn:Hk; [done|].
  intros [= <-]. apply mapM_inr_Forall2 in Hk.
  assert (Hzip : Forall (λ kj, YuMiArm.joint_index kj.2 = inr kj.1) (zip keys joints)
                 ∧ (zip keys joints).*2 = joints).
  { clear -Hk. induction Hk as [|j k joints keys Hj _ [IH1 IH2]]; [done|].
    split; [by constructor | exact (f_equal (cons j) IH2)]. }
  destruct Hzip as [Hidx Hsnd].
  set (s := YuMiArm.sort_keyed (zip keys joints)).
  assert (Hperm : Permutation s (zip keys joints)) by apply sort_keyed_perm.
  split.
  - transitivity ((zip keys joints).*2); [by apply fmap_Permutation | by rewrite Hsnd].
  - exists (s.*1). split.
    + apply mapM_inr_Forall2.
      rewrite <- Hperm in Hidx. clear -Hidx.
      induction Hidx as [|[k j] l Hj _ IH]; simpl; by constructor.
    + pose proof (sort_keyed_sorted (zip keys joints)) as Hs. fold s in Hs.
      clear -Hs. induction Hs as [|[k j] l _ IH Hall]; simpl; constructor; [done|].
      clear -Hall. induction Hall as [|[k2 j2] l Hle _ IH]; simpl; by constructor.
Qed.

Lemma check_joint_valid a j :
  YuMiArm.check_joint a j = inr tt →
  ∃ side, YuMiArm.name0 a = inr side ∧ valid_joint_name side j.
Proof.
  unfold YuMiArm.check_joint, mbind, Exc_bind, mret, Exc_ret.
  destruct (split_on "_" (name j)) as [|a0 [|a1 [|a2 [|a3 [|a4 rest]]]]] eqn:Hsplit;
    simpl; try done.
  - by destruct (py_int a2).
  - destruct (py_int a2) as [i|] eqn:Hi; [|done].
    repeat case_bool_decide; simpl; try done.
    destruct (0 <? i) eqn:Hpos; simpl; [|done].
    change (Z.of_nat YuMiArm.JOINTS) with 7.
    destruct (i <=? 7) eqn:Hmax; simpl; [|done].
    destruct (String.length a3 =? 1)%nat; simpl; [|done].
    destruct (YuMiArm.name0 a) as [e|side] eqn:Hside; [done|].
    destruct (String.eqb a3 side) eqn:H3; simpl; [|done].
    intros _. exists side. split; [done|]. exists a2, i.
    apply String.eqb_eq in H3. apply Z.ltb_lt in Hpos. apply Z.leb_le in Hmax.
    simplify_eq. split; [done|]. split; [done|lia].
  - by destruct (py_int a2).
Qed.

(** The validation passed: the list has seven well-formed names of the
    arm's side, and what is returned is the list sorted by index. *)
Lemma check_and_sort_accepts self joints sorted w w' :
  YuMiArm._check_and_sort_joints self joints w = (inr sorted, w') →
  w' = w
  ∧ length joints = YuMiArm.JOINTS
  ∧ (∃ side, YuMiArm.name0 (YuMiArm.arm_of self w) = inr side
             ∧ Forall (valid_joint_name side) joints)
  ∧ YuMiArm.sort_joints joints = inr sorted.
Proof.
  unfold YuMiArm._check_and_sort_joints. rewrite bind_world. simpl.
  destruct (length joints =? YuMiArm.JOINTS)%nat eqn:Hlen; simpl; [|done].
  rewrite bind_world. unfold lift at 1.
  destruct (mapM (YuMiArm.check_joint _) joints) as [e|us] eqn:Hc; [done|].
  unfold lift. intros [= Hs <-]. split; [done|].
  split; [by apply Nat.eqb_eq|]. split; [|done].
  apply mapM_inr_Forall2 in Hc.
  assert (Hall : Forall (λ j, YuMiArm.check_joint (YuMiArm.arm_of self w) j = inr tt) joints).
  { clear -Hc. induction Hc as [|j [] joints us Hj _ IH]; by constructor. }
  destruct joints as [|j0 joints0]; [done|].
  destruct (check_joint_valid _ _ (Forall_inv Hall)) as (side & Hside & _).
  exists side. split; [done|].
  eapply Forall_impl; [exact Hall|]. intros j Hj.
  destruct (check_joint_valid _ _ Hj) as (side' & Hside' & Hv). congruence.
Qed.

(** A request that returns has been put on the wire, once. *)
Lemma request_returns self request timeout socket w res w' :
  YuMiArm._request self request timeout socket w = (inr res, w') →
  trace w' = trace w
             ++ [EvSend (default (_main_socket (YuMiArm.arm_of self w)) socket) request].
Proof.
  unfold YuMiArm._request. rewrite bind_world. simpl. rewrite bind_world.
  unfold YumiSocket.send_request.
  destruct (sockets w !! _) as [s|]; [|done].
  destruct (negb (sock_open s)); [done|].
  destruct (wire_reply _ _ _) as [| |recv]; [done..|].
  destruct (YumiSocket.parse_response recv) as [e|r]; [done|].
  simpl. destruct (negb _); [done|]. by intros [= _ <-].
Qed.

(** The shape shared by [goto_joints] and [goto_joints_sync]. *)
Lemma joints_motion_accepted cmd self joints w w' :
  (sorted ← YuMiArm._check_and_sort_joints self joints;
   a ← YuMiArm.get_self self;
   body ← lift (YuMiArm._joints_to_str sorted);
   YuMiArm._request self (_construct_req cmd body) (Some (_motion_timeout a)) None;;
   mret tt) w = (inr tt, w') →
  length joints = YuMiArm.JOINTS
  ∧ (∃ side, YuMiArm.name0 (YuMiArm.arm_of self w) = inr side
             ∧ Forall (valid_joint_name side) joints)
  ∧ ∃ sorted keys body,
      Permutation sorted joints
      ∧ mapM YuMiArm.joint_index sorted = inr keys
      ∧ StronglySorted Z.le keys
      ∧ YuMiArm._joints_to_str sorted = inr body
      ∧ trace w' = trace w
                   ++ [EvSend (_main_socket (YuMiArm.arm_of self w)) (_construct_req cmd body)].
Proof.
  rewrite bind_world.
  destruct (YuMiArm._check_and_sort_joints self joints w) as [[e|sorted] w1] eqn:Hc; [done|].
  apply check_and_sort_accepts in Hc as (-> & Hlen & Hvalid & Hsort).
  apply sort_joints_spec in Hsort as (Hperm & keys & Hkeys & Hsorted).
  rewrite bind_world. simpl. rewrite bind_world. unfold lift at 1.
  destruct (YuMiArm._joints_to_str sorted) as [e|body] eqn:Hbody; [done|].
  rewrite bind_world.
  destruct (YuMiArm._request _ _ _ _ w) as [[e|res] w2] eqn:Hreq; [done|].
  intros [= <-]. apply request_returns in Hreq.
  split; [done|]. split; [done|]. by exists sorted, keys, body.
Qed.

(** C4, as stated, fails: seven joints that all bear the name of joint 1
    of the left arm are accepted by [goto_joints]; their names are no
    permutation of the arm's joint names. *)
Lemma duplicate_joints_accepted :
  (YuMiArm.goto_joints LEFT Scenario.same_joint (Sample.world0 Sample.calm)).1 = inr tt
  ∧ (YuMiArm.joint_names LEFT (Sample.world0 Sample.calm)).1
    = inr ["yumi_joint_1_l"; "yumi_joint_2_l"; "yumi_joint_3_l"; "yumi_joint_4_l";
           "yumi_joint_5_l"; "yumi_joint_6_l"; "yumi_joint_7_l"]
  ∧ ¬ Permutation (name <$> Scenario.same_joint)
        ["yumi_joint_1_l"; "yumi_joint_2_l"; "yumi_joint_3_l"; "yumi_joint_4_l";
         "yumi_joint_5_l"; "yumi_joint_6_l"; "yumi_joint_7_l"].
Proof.
  split; [vm_compute; reflexivity|]. split; [vm_compute; reflexivity|].
  intros Hperm.
  assert (Hin : "yumi_joint_2_l" ∈ name <$> Scenario.same_joint).
  { rewrite Hperm. rewrite !elem_of_cons. tauto. }
  cbn in Hin. rewrite !elem_of_cons, elem_of_nil in Hin.
  intuition discriminate.
Qed.

(** C4, amended.  For every joints list accepted by [goto_joints] or
    [goto_joints_sync] (the call returns), the list has seven joints, every
    name splits at underscores into "yumi", "joint", an integer between 1
    and 7 and the letter of the arm's side, and the body that is framed and
    sent is built from the list sorted by joint index.  That the names are
    pairwise distinct is not checked. *)
Theorem accepted_joints_valid_and_sorted (sync : bool) self joints w :
  let rw := if sync then YuMiArm.goto_joints_sync self joints w
            else YuMiArm.goto_joints self joints w in
  rw.1 = inr tt →
  length joints = 7%nat
  ∧ (∃ side, YuMiArm.name0 (YuMiArm.arm_of self w) = inr side
             ∧ Forall (valid_joint_name side) joints)
  ∧ ∃ sorted keys body,
      Permutation sorted joints
      ∧ mapM YuMiArm.joint_index sorted = inr keys
      ∧ StronglySorted Z.le keys
      ∧ YuMiArm._joints_to_str sorted = inr body
      ∧ trace rw.2 = trace w
                     ++ [EvSend (_main_socket (YuMiArm.arm_of self w))
                           (_construct_req
                              (if sync then CmdCodes.goto_joints_sync
                               else CmdCodes.goto_joints)
                              body)].
Proof.
  intros rw Hacc.
  assert (Hrw : rw = (inr tt, rw.2)) by (destruct rw as [r w']; simpl in *; by subst).
  subst rw. destruct sync.
  - by apply (joints_motion_accepted CmdCodes.goto_joints_sync).
  - by apply (joints_motion_accepted CmdCodes.goto_joints).
Qed.

(** C4, amended, on the seven joints of the left arm given out of order. *)
Lemma accepted_joints_valid_and_sorted_witness :
  (YuMiArm.goto_joints LEFT Scenario.shuffled (Sample.world0 Sample.calm)).1 = inr tt
  ∧ ∃ sorted keys body,
      Permutation sorted Scenario.shuffled
      ∧ mapM YuMiArm.joint_index sorted = inr keys
      ∧ StronglySorted Z.le keys
      ∧ YuMiArm._joints_to_str sorted = inr body
      ∧ trace (YuMiArm.goto_joints LEFT Scenario.shuffled (Sample.world0 Sample.calm)).2
        = trace (Sample.world0 Sample.calm)
          ++ [EvSend 0 (_construct_req CmdCodes.goto_joints body)].
Proof.
  assert (Hacc : (YuMiArm.goto_joints LEFT Scenario.shuffled
                    (Sample.world0 Sample.calm)).1 = inr tt)
    by (vm_compute; reflexivity).
  split; [exact Hacc|].
  exact (proj2 (proj2 (accepted_joints_valid_and_sorted false LEFT Scenario.shuffled
                         (Sample.world0 Sample.calm) Hacc))).
Defined.

(** C10 (index read before the part count).  For every list of seven
    joints whose first name has fewer than three parts between
    underscores (such as "elbow"), the validation raises [IndexError], not
    the driver's invalid-joint-name error: the index part is read before
    the number of parts is checked.  [goto_joints], [goto_joints_sync] and
    [fk] let the exception through and send nothing. *)
Theorem short_joint_name_raises_IndexError {ext : Extern} self j rest w :
  length (j :: rest) = YuMiArm.JOINTS →
  (length (split_on "_" (name j)) < 3)%nat →
  YuMiArm._check_and_sort_joints self (j :: rest) w = (inl IndexError, w)
  ∧ YuMiArm.goto_joints self (j :: rest) w = (inl IndexError, w)
  ∧ YuMiArm.goto_joints_sync self (j :: rest) w = (inl IndexError, w)
  ∧ YuMiArm.fk self (j :: rest) w = (inl IndexError, w)
  ∧ is_YumiException IndexError = false.
Proof.
  intros Hlen Hparts.
  assert (Hcheck : YuMiArm._check_and_sort_joints self (j :: rest) w = (inl IndexError, w)).
  { unfold YuMiArm._check_and_sort_joints. rewrite bind_world. unfold YuMiArm.get_self.
    cbv beta iota. rewrite Hlen, Nat.eqb_refl. cbn [negb].
    rewrite bind_world. unfold lift at 1.
    rewrite (mapM_inl_head _ _ _ IndexError); [done|].
    unfold YuMiArm.check_joint.
    destruct (split_on "_" (name j)) as [|a0 [|a1 [|a2 arr]]]; simpl in *; [done..|lia]. }
  split; [done|].
  unfold YuMiArm.goto_joints, YuMiArm.goto_joints_sync, YuMiArm.fk.
  rewrite !bind_world, Hcheck. done.
Qed.

(** C10 on a list whose first joint is named "elbow", for the left arm. *)
Lemma short_joint_name_raises_IndexError_witness :
  length Scenario.with_elbow = YuMiArm.JOINTS
  ∧ (length (split_on "_" "elbow") < 3)%nat
  ∧ YuMiArm._check_and_sort_joints LEFT Scenario.with_elbow (Sample.world0 Sample.calm)
    = (inl IndexError, Sample.world0 Sample.calm)
  ∧ YuMiArm.goto_joints LEFT Scenario.with_elbow (Sample.world0 Sample.calm)
    = (inl IndexError, Sample.world0 Sample.calm)
  ∧ YuMiArm.goto_joints_sync LEFT Scenario.with_elbow (Sample.world0 Sample.calm)
    = (inl IndexError, Sample.world0 Sample.calm)
  ∧ YuMiArm.fk (ext:=Sample.extern) LEFT Scenario.with_elbow (Sample.world0 Sample.calm)
    = (inl IndexError, Sample.world0 Sample.calm)
  ∧ is_YumiException IndexError = false.
Proof.
  split; [reflexivity|]. split; [cbn; lia|].
  apply (short_joint_name_raises_IndexError (ext:=Sample.extern) LEFT
           (mkJoint "elbow" 0) (replicate 6 (mkJoint "yumi_joint_1_l" 0))
           (Sample.world0 Sample.calm)).
  - reflexivity.
  - cbn. lia.
Defined.

(** ** Gripper commands *)

Lemma iter_to_str_from_app result template l1 l2 :
  _iter_to_str_from result template (l1 ++ l2)
  = match _iter_to_str_from result template l1 with
    | inl e => inl e
    | inr s => _iter_to_str_from s template l2
    end.
Proof.
  revert result. induction l1 as [|val l1 IH]; intros result; simpl; [done|].
  unfold mbind, Exc_bind. destruct (format template val) as [e|s]; [done|]. apply IH.
Qed.

(** The flag of [no_wait] is one more field, ["0"], at the end of the body. *)
Lemma iter_to_str_no_wait l :
  _iter_to_str (TplFixed 1) (l ++ [PyInt 0])
  = match _iter_to_str (TplFixed 1) l with
    | inl e => inl e
    | inr s => inr (s +:+ "0 ")
    end.
Proof.
  unfold _iter_to_str. rewrite iter_to_str_from_app.
  by destruct (_iter_to_str_from "" (TplFixed 1) l).
Qed.

(** C5, as stated, fails: with a force of 25 N [close_gripper] sends
    nothing and raises [ValueError], and [open_gripper] sends the force as
    it is; neither clamps it to 20 N. *)
Lemma gripper_force_not_clamped :
  (YuMiArm.close_gripper LEFT (PyFloat 25) (PyFloat 0) false
     (Sample.world0 Sample.calm)).1
  = inl (ValueError YuMiArm.force_range_msg)
  ∧ trace (YuMiArm.close_gripper LEFT (PyFloat 25) (PyFloat 0) false
             (Sample.world0 Sample.calm)).2 = []
  ∧ trace (YuMiArm.open_gripper LEFT (Some (PyFloat 25)) None false
             (Sample.world0 Sample.calm)).2 = [EvSend 0 "21 25 #"].
Proof. repeat split; vm_compute; reflexivity. Qed.

(** C5, amended.  [close_gripper] checks the ranges and does not clamp: a
    force outside [0, 20] or a width outside [0, 0.02] raises [ValueError]
    and nothing is sent; otherwise the force and the width times 1000 are
    sent as they are.  [open_gripper] checks nothing and sends the force
    and the width times 1000 as they are.  With [no_wait] the body ends
    with one more field, 0. *)
Theorem gripper_range_checked_not_clamped self force width (no_wait : bool) w mm body :
  let flag := if no_wait then [PyInt 0] else [] in
  let send (cmd : CmdCodes.t) :=
    (YuMiArm._request self (_construct_req cmd body)
       (Some (_motion_timeout (YuMiArm.arm_of self w))) None;; mret tt) w in
  float_mul_num METERS_TO_MM width = inr mm →
  _iter_to_str (TplFixed 1) ([force; mm] ++ flag) = inr body →
  (if out_of_range force width
   then ∃ msg, YuMiArm.close_gripper self force width no_wait w = (inl (ValueError msg), w)
   else YuMiArm.close_gripper self force width no_wait w = send CmdCodes.close_gripper)
  ∧ YuMiArm.open_gripper self (Some force) (Some width) no_wait w
    = send CmdCodes.open_gripper
  ∧ (no_wait = true →
     ∃ body0, _iter_to_str (TplFixed 1) [force; mm] = inr body0 ∧ body = body0 +:+ "0 ").
Proof.
  intros flag send Hmm Hbody. subst flag send. split; [|split].
  - unfold out_of_range, YuMiArm.close_gripper.
    destruct (num_ltb force (PyInt 0) || num_ltb (PyInt MAX_GRIPPER_FORCE) force);
      cbn [orb]; [eexists; reflexivity|].
    destruct (num_ltb width (PyInt 0) || num_ltb (PyFloat MAX_GRIPPER_WIDTH) width);
      [eexists; reflexivity|].
    rewrite bind_world, Hmm. unfold lift at 1. cbv beta iota.
    rewrite bind_world, Hbody. unfold lift. cbv beta iota.
    by rewrite bind_world.
  - unfold YuMiArm.open_gripper. cbv zeta.
    change (default (PyInt MAX_GRIPPER_FORCE) (Some force)) with force.
    rewrite !bind_world, Hmm. unfold lift at 1. cbv beta iota.
    rewrite !bind_world, Hbody. unfold lift, mret, M_ret. cbv beta iota.
    by rewrite !bind_world.
  - intros ->.
    rewrite iter_to_str_no_wait in Hbody.
    destruct (_iter_to_str (TplFixed 1) [force; mm]) as [e|body0]; [done|].
    exists body0. split; [done|]. by injection Hbody.
Qed.

(** C5, amended, on a force of 10 N and a width of 10 mm, without waiting. *)
Lemma gripper_range_checked_not_clamped_witness :
  float_mul_num METERS_TO_MM (PyFloat 0.01) = inr (PyFloat (METERS_TO_MM * 0.01))
  ∧ _iter_to_str (TplFixed 1) [PyFloat 10; PyFloat (METERS_TO_MM * 0.01); PyInt 0]
    = inr "10 10 0 "
  ∧ YuMiArm.close_gripper LEFT (PyFloat 10) (PyFloat 0.01) true (Sample.world0 Sample.calm)
    = (YuMiArm._request LEFT "20 10 10 0 #" (Some 20%float) None;; mret tt)
        (Sample.world0 Sample.calm)
  ∧ YuMiArm.open_gripper LEFT (Some (PyFloat 10)) (Some (PyFloat 0.01)) true
      (Sample.world0 Sample.calm)
    = (YuMiArm._request LEFT "21 10 10 0 #" (Some 20%float) None;; mret tt)
        (Sample.world0 Sample.calm)
  ∧ ∃ body0, _iter_to_str (TplFixed 1) [PyFloat 10; PyFloat (METERS_TO_MM * 0.01)] = inr body0
             ∧ "10 10 0 " = body0 +:+ "0 ".
Proof.
  assert (Hmm : float_mul_num METERS_TO_MM (PyFloat 0.01)
                = inr (PyFloat (METERS_TO_MM * 0.01))) by reflexivity.
  assert (Hbody : _iter_to_str (TplFixed 1)
                    ([PyFloat 10; PyFloat (METERS_TO_MM * 0.01)] ++ [PyInt 0])
                  = inr "10 10 0 ") by (vm_compute; reflexivity).
  split; [exact Hmm|]. split; [exact Hbody|].
  destruct (gripper_range_checked_not_clamped LEFT (PyFloat 10) (PyFloat 0.01) true
              (Sample.world0 Sample.calm) _ _ Hmm Hbody) as (Hclose & Hopen & Hflag).
  split; [exact Hclose|]. split; [exact Hopen|]. exact (Hflag eq_refl).
Defined.

(** ** The speed number of a motion *)

#[global] Instance grows_preorder : PreOrder grows.
Proof.
  split.
  - intros w. exists []. by rewrite app_nil_r.
  - intros w1 w2 w3 [t1 E1] [t2 E2]. exists (t1 ++ t2).
    by rewrite E2, E1, <- app_assoc.
Qed.

Lemma emits_grows {A} P (m : M A) : preserves (emits P) m → preserves grows m.
Proof. intros Hm w. destruct (Hm w) as (tr & Htr & _). by exists tr. Qed.

Lemma grows_with_move_lock {A} (body : M A) :
  preserves grows body → preserves grows (with_move_lock body).
Proof.
  intros Hb w. unfold with_move_lock. destruct (move_lock w); [reflexivity|].
  destruct (Hb (set_trace (trace w ++ [EvAcquire]) (set_move_lock true w))) as [tr Htr].
  destruct (body _) as [r w']. simpl in *.
  exists (EvAcquire :: tr ++ [EvRelease]). by rewrite Htr, <- !app_assoc.
Qed.

(** A computation that has put [t] on the trace, followed by any code. *)
Lemma bind_trace_prefix {A B} (m : M A) (k : A → M B) w t :
  trace (m w).2 = trace w ++ t →
  (∀ a, preserves grows (k a)) →
  ∃ rest, trace ((m ≫= k) w).2 = trace w ++ t ++ rest.
Proof.
  intros Hm Hk. rewrite bind_world.
  destruct (m w) as [[e|a] w1]; simpl in *.
  - exists []. by rewrite app_nil_r.
  - destruct (Hk a w1) as [rest Hrest]. exists rest.
    by rewrite Hrest, Hm, <- app_assoc.
Qed.

(** Every primitive step emits events of a class that contains all events. *)
Ltac emits_prim :=
  first [ by apply emits_send | apply emits_pose_body | apply emits_new_pose
        | apply emits_schedule | by apply emits_reconnect
        | by apply emits_rws | by apply emits_log
        | apply emits_cancel_event | apply emits_speed_cache ].

Lemma set_speed_sends self data body w :
  _iter_to_str (TplFixed 2) data = inr body →
  can_send (_main_socket (YuMiArm.arm_of self w)) 0
    (_construct_req CmdCodes.set_speed body) w →
  (YuMiArm.set_speed self data w).2
  = sent_on (_main_socket (YuMiArm.arm_of self w))
      (_construct_req CmdCodes.set_speed body) w.
Proof.
  intros Hbody (s & Hs & Ho & Hw). rewrite Nat.add_0_r in Hw.
  unfold YuMiArm.set_speed. rewrite bind_world, Hbody. unfold lift. cbv beta iota zeta.
  rewrite bind_world. unfold YuMiArm._request. rewrite bind_world.
  unfold YuMiArm.get_self. cbv beta iota zeta. rewrite bind_world.
  unfold YumiSocket.send_request. cbn [default req]. rewrite Hs, Ho. cbn [negb].
  destruct (wire_reply _ _ _) as [| |recv]; [done|done|].
  destruct (YumiSocket.parse_response recv) as [e|res]; [done|].
  by destruct (negb _).
Qed.

(** Two tasks submitted one after the other. *)
Lemma mapM_submit_pair {A} (f : YumiArms → M A) w :
  mapM (λ arm, submit (f arm)) [LEFT; RIGHT] w
  = (inr [(f LEFT w).1; (f RIGHT (f LEFT w).2).1], (f RIGHT (f LEFT w).2).2).
Proof.
  cbn [mapM]. rewrite !bind_world. unfold submit at 1.
  destruct (f LEFT w) as [r1 w1]. cbn [fst snd]. rewrite !bind_world. unfold submit at 1.
  by destruct (f RIGHT w1) as [r2 w2].
Qed.

Lemma set_v_sends n w body :
  _speed (robot w) ≠ Some n →
  _iter_to_str (TplFixed 2) (YuMi.get_v n) = inr body →
  can_send (_main_socket (_left (robot w))) 0 (_construct_req CmdCodes.set_speed body) w →
  can_send (_main_socket (_right (robot w))) 1 (_construct_req CmdCodes.set_speed body) w →
  trace (YuMi.set_v n w).2
  = trace w ++ [EvSend (_main_socket (_left (robot w))) (_construct_req CmdCodes.set_speed body);
                EvSend (_main_socket (_right (robot w))) (_construct_req CmdCodes.set_speed body)].
Proof.
  intros Hcache Hbody Hl (sr & Hsr & Hor & Hwr).
  unfold YuMi.set_v. rewrite bind_world. unfold YuMi.get_robot. cbv beta iota.
  rewrite bool_decide_eq_false_2 by done.
  rewrite bind_world.
  set (w1 := sent_on (_main_socket (_left (robot w))) (_construct_req CmdCodes.set_speed body) w).
  set (w2 := sent_on (_main_socket (_right (robot w))) (_construct_req CmdCodes.set_speed body) w1).
  assert (H1 : (YuMiArm.set_speed LEFT (YuMi.get_v n) w).2 = w1)
    by (by apply set_speed_sends).
  assert (H2 : (YuMiArm.set_speed RIGHT (YuMi.get_v n) w1).2 = w2).
  { apply (set_speed_sends RIGHT); [done|].
    exists sr. rewrite Nat.add_0_r. replace (sent w + 1)%nat with (S (sent w)) in Hwr by lia.
    done. }
  unfold YuMi.arms. rewrite mapM_submit_pair, H1, H2. cbv beta iota.
  unfold YuMi.wait_for_all. rewrite bind_world. unfold YuMi.next_schedule.
  cbv beta iota.
  assert (Ht : trace w2 = trace w ++ [EvSend (_main_socket (_left (robot w)))
                                        (_construct_req CmdCodes.set_speed body);
                                      EvSend (_main_socket (_right (robot w)))
                                        (_construct_req CmdCodes.set_speed body)]).
  { subst w2 w1. unfold sent_on. simpl. by rewrite <- app_assoc. }
  destruct (YuMi.as_completed _ _ _) as [[]|[]]; simpl; exact Ht.
Qed.

(** [int(f)] of a positive float of value [m * 2^e] is the integer part
    of that value. *)
Lemma int_of_float_truncates f m e n :
  Prim2SF f = S754_finite false m e →
  int_of_float f = inr n →
  if 0 <=? e then n = Z.pos m * 2 ^ e
  else n * 2 ^ (- e) ≤ Z.pos m < (n + 1) * 2 ^ (- e).
Proof.
  unfold int_of_float. intros -> [= <-].
  destruct (0 <=? e) eqn:He.
  - apply Z.leb_le in He. by rewrite Z.shiftl_mul_pow2.
  - apply Z.leb_gt in He. rewrite Z.shiftr_div_pow2 by lia.
    assert (0 < 2 ^ (- e)) by (apply Z.pow_pos_nonneg; lia).
    pose proof (Z.mul_div_le (Z.pos m) (2 ^ (- e))).
    pose proof (Z.mul_succ_div_gt (Z.pos m) (2 ^ (- e))).
    nia.
Qed.

Lemma with_move_lock_prefix {A} (body : M A) w t :
  move_lock w = false →
  (∃ rest, trace (body (acquired w)).2 = trace (acquired w) ++ t ++ rest) →
  ∃ rest, trace (with_move_lock body w).2 = trace w ++ EvAcquire :: t ++ rest.
Proof.
  intros Hfree [rest Hrest]. unfold with_move_lock. rewrite Hfree. fold (acquired w).
  destruct (body (acquired w)) as [r w']. simpl in *.
  exists (rest ++ [EvRelease]). by rewrite Hrest, <- !app_assoc.
Qed.

Section C8.

Context {ext : Extern}.

Lemma grows_move_to_pose_tail target_pose linear arm_id :
  preserves grows
    (YuMi.new_event;;
     log EvSupervise;;
     arm ← YuMi._arm_by_name arm_id;
     rel ← YuMi.make_pose_rel_obj target_pose;
     motion ← submit (YuMiArm.goto_pose arm rel linear false);
     s ← YuMi.next_schedule;
     YuMi.completion_protocol (YuMi.completion_order s motion)).
Proof.
  apply (emits_grows (λ _, True)).
  apply preserves_move_to_pose_tail; try exact _; intros; emits_prim.
Qed.

Lemma grows_move_to_joints_tail target_joints arm_id :
  preserves grows
    (match arm_id with
     | None =>
         let left := filter (λ j, endswith (name j) "_l" = true) target_joints in
         let right := filter (λ j, endswith (name j) "_r" = true) target_joints in
         YuMi.goto_joints_sync left right
     | Some _ =>
         arm ← YuMi._arm_by_name arm_id;
         YuMiArm.goto_joints arm target_joints
     end).
Proof.
  apply (emits_grows (λ _, True)).
  apply preserves_move_to_joints_tail; try exact _; intros; emits_prim.
Qed.

(** C8, amended.  A motion call with a speed factor between 0 and 1 gives
    [set_v] the number [n = int(speed * max_tcp_speed * 1000)]: the
    product is cut to its integer part, not rounded.  When that number is
    not the cached one and both arms can take a request, the first wire
    commands of the call are [set_speed] on both arms with the speed data
    [(n, 500, n, 500)]. *)
Theorem speed_number_truncates w speed n body :
  let request := _construct_req CmdCodes.set_speed body in
  let pair := [EvSend (_main_socket (_left (robot w))) request;
               EvSend (_main_socket (_right (robot w))) request] in
  move_lock w = false →
  ((0 <=? speed) && (speed <=? 1))%float = true →
  int_of_float (speed * max_tcp_speed (settings (robot w)) * METERS_TO_MM) = inr n →
  _speed (robot w) ≠ Some n →
  _iter_to_str (TplFixed 2) [PyInt n; PyInt 500; PyInt n; PyInt 500] = inr body →
  can_send (_main_socket (_left (robot w))) 0 request w →
  can_send (_main_socket (_right (robot w))) 1 request w →
  (∀ end_effector_id target_pose safe linear arm_id, ∃ rest,
     trace (YuMi.move_to_pose end_effector_id target_pose speed safe linear arm_id w).2
     = trace w ++ EvAcquire :: pair ++ rest)
  ∧ (∀ target_joints safe arm_id, ∃ rest,
       trace (YuMi.move_to_joints target_joints speed safe arm_id w).2
       = trace w ++ EvAcquire :: pair ++ rest)
  ∧ (∀ left_pose right_pose, ∃ rest,
       trace (YuMi.move_both_arms left_pose right_pose speed w).2
       = trace w ++ pair ++ rest)
  ∧ YuMi.get_v n = [PyInt n; PyInt 500; PyInt n; PyInt 500]
  ∧ (∀ m e,
       Prim2SF (speed * max_tcp_speed (settings (robot w)) * METERS_TO_MM)
       = S754_finite false m e →
       if 0 <=? e then n = Z.pos m * 2 ^ e
       else n * 2 ^ (- e) ≤ Z.pos m < (n + 1) * 2 ^ (- e)).
Proof.
  intros request pair Hfree Hassert Hn Hcache Hbody Hl Hr.
  assert (Hset : ∀ w0, robot w0 = robot w → sockets w0 = sockets w → env w0 = env w →
                   sent w0 = sent w →
                   trace (YuMi.set_v n w0).2 = trace w0 ++ pair).
  { intros w0 Hrob Hsock Henv Hsent. subst pair request. rewrite <- Hrob.
    apply set_v_sends; rewrite ?Hrob; [done | done | |].
    - destruct Hl as (s & ? & ? & ?). exists s. by rewrite Hsock, Henv, Hsent.
    - destruct Hr as (s & ? & ? & ?). exists s. by rewrite Hsock, Henv, Hsent. }
  assert (Hlocked : ∀ (tail : M unit), preserves grows tail →
            ∃ rest,
              trace (with_move_lock
                       (r ← YuMi.get_robot;
                        n ← lift (YuMi.speed_number r speed);
                        YuMi.set_v n;; tail) w).2
              = trace w ++ EvAcquire :: pair ++ rest).
  { intros tail Htail. apply with_move_lock_prefix; [done|].
    rewrite bind_world. unfold YuMi.get_robot. cbv beta iota.
    rewrite bind_world. unfold YuMi.speed_number.
    change (robot (acquired w)) with (robot w). rewrite Hn. unfold lift. cbv beta iota.
    apply bind_trace_prefix; [by apply Hset | by intros _]. }
  split; [|split; [|split; [|split]]].
  - intros eid target_pose safe linear arm_id.
    unfold YuMi.move_to_pose. rewrite assert_bind, Hassert.
    apply Hlocked, grows_move_to_pose_tail.
  - intros target_joints safe arm_id.
    unfold YuMi.move_to_joints. rewrite assert_bind, Hassert.
    apply Hlocked, grows_move_to_joints_tail.
  - intros left_pose right_pose.
    unfold YuMi.move_both_arms. rewrite assert_bind, Hassert.
    rewrite bind_world. unfold YuMi.get_robot. cbv beta iota.
    rewrite bind_world. unfold YuMi.speed_number. rewrite Hn. unfold lift. cbv beta iota.
    apply bind_trace_prefix; [by apply Hset|]. intros _.
    apply grows_with_move_lock, (emits_grows (λ _, True)).
    apply preserves_move_both_arms_body; try exact _; intros; emits_prim.
  - reflexivity.
  - intros m e Hsf. by apply (int_of_float_truncates _ m e n Hsf).
Qed.

End C8.

(** C8, as stated, fails: with the speed factor 2^-11 and the maximal
    speed 1.5 m/s the product is 0.732421875, which rounds to 1; the code
    cuts it to 0 and both arms receive the speed data (0, 500, 0, 500). *)
Lemma speed_number_not_rounded :
  YuMi.speed_number (robot (Scenario.world1 Sample.calm)) 0.00048828125 = inr 0
  ∧ round_float (0.00048828125
                 * max_tcp_speed (settings (robot (Scenario.world1 Sample.calm)))
                 * METERS_TO_MM) = inr 1
  ∧ trace (YuMi.move_to_pose (ext:=Sample.extern) "" 5 0.00048828125 true true
             (Some "left") (Scenario.world1 Sample.calm)).2
    = [EvAcquire; EvSend 0 "8 0 500 0 500 #"; EvSend 3 "8 0 500 0 500 #";
       EvSupervise; EvSend 0 "1 250 0 500 0 0 0 1 #"; EvCancel; EvCancel; EvRelease].
Proof. repeat split; vm_compute; reflexivity. Qed.

(** C8, amended, on a move of the left arm at half of the maximal speed:
    the speed number is 750. *)
Lemma speed_number_truncates_witness :
  move_lock (Scenario.world1 Sample.calm) = false
  ∧ ((0 <=? 0.5) && (0.5 <=? 1))%float = true
  ∧ int_of_float (0.5 * max_tcp_speed (settings (robot (Scenario.world1 Sample.calm)))
                  * METERS_TO_MM) = inr 750
  ∧ _speed (robot (Scenario.world1 Sample.calm)) ≠ Some 750
  ∧ _iter_to_str (TplFixed 2) [PyInt 750; PyInt 500; PyInt 750; PyInt 500]
    = inr "750 500 750 500 "
  ∧ can_send 0 0 (_construct_req CmdCodes.set_speed "750 500 750 500 ")
      (Scenario.world1 Sample.calm)
  ∧ can_send 3 1 (_construct_req CmdCodes.set_speed "750 500 750 500 ")
      (Scenario.world1 Sample.calm)
  ∧ ∃ rest,
      trace (YuMi.move_to_pose (ext:=Sample.extern) "" 5 0.5 true true (Some "left")
               (Scenario.world1 Sample.calm)).2
      = trace (Scenario.world1 Sample.calm)
        ++ EvAcquire
           :: [EvSend 0 (_construct_req CmdCodes.set_speed "750 500 750 500 ");
               EvSend 3 (_construct_req CmdCodes.set_speed "750 500 750 500 ")]
           ++ rest.
Proof.
  assert (Hn : int_of_float (0.5 * max_tcp_speed (settings (robot (Scenario.world1 Sample.calm)))
                             * METERS_TO_MM) = inr 750) by (vm_compute; reflexivity).
  assert (Hcache : _speed (robot (Scenario.world1 Sample.calm)) ≠ Some 750)
    by (intros Heq; discriminate Heq).
  assert (Hbody : _iter_to_str (TplFixed 2) [PyInt 750; PyInt 500; PyInt 750; PyInt 500]
                  = inr "750 500 750 500 ") by (vm_compute; reflexivity).
  assert (Hl : can_send 0 0 (_construct_req CmdCodes.set_speed "750 500 750 500 ")
                 (Scenario.world1 Sample.calm)).
  { exists (mkSocket 5000 true). split; [reflexivity|]. split; [reflexivity|].
    intros Heq; discriminate Heq. }
  assert (Hr : can_send 3 1 (_construct_req CmdCodes.set_speed "750 500 750 500 ")
                 (Scenario.world1 Sample.calm)).
  { exists (mkSocket 5001 true). split; [reflexivity|]. split; [reflexivity|].
    intros Heq; discriminate Heq. }
  split; [reflexivity|]. split; [reflexivity|]. split; [exact Hn|].
  split; [exact Hcache|]. split; [exact Hbody|]. split; [exact Hl|]. split; [exact Hr|].
  exact (proj1 (speed_number_truncates (ext:=Sample.extern) (Scenario.world1 Sample.calm)
                  0.5 750 "750 500 750 500 " eq_refl eq_refl Hn Hcache Hbody Hl Hr)
           "" 5%nat true true (Some "left")).
Defined.

(** ** The objects of the caller *)

#[global] Instance keeps_objects_preorder : PreOrder keeps_objects.
Proof.
  split; [intros w; unfold keeps_objects; reflexivity | intros w1 w2 w3 H12 H23].
  unfold keeps_objects in *. by etransitivity.
Qed.

Lemma keeps_objects_send s p : preserves keeps_objects (YumiSocket.send_request s p).
Proof.
  intros w. unfold YumiSocket.send_request, keeps_objects.
  by repeat case_match.
Qed.

Lemma read_pose_world l w : read_pose l w = ((read_pose l w).1, w).
Proof. unfold read_pose. by repeat case_match. Qed.

Lemma new_pose_spec p w :
  new_pose p w
  = (inr (length (heap w) + 2)%nat,
     set_heap (heap w ++ [OPosition (position p); OOrientation (orientation p);
                          OPose (length (heap w)) (length (heap w) + 1)]) w).
Proof.
  unfold new_pose, alloc. rewrite !bind_world. cbn.
  rewrite !length_app. cbn. rewrite <- !app_assoc. cbn.
  by replace (length (heap w) + 1 + 1)%nat with (length (heap w) + 2)%nat by lia.
Qed.

Lemma keeps_objects_new_pose p : preserves keeps_objects (new_pose p).
Proof.
  intros w. rewrite new_pose_spec. unfold keeps_objects. cbn. by apply prefix_app_r.
Qed.

(** Scaling the position of a pose that has just been copied touches the
    copy only. *)
Lemma position_imul_copy p k w :
  position_imul (length (heap w) + 2) k (new_pose p w).2
  = (inr tt,
     set_heap (heap w ++ [OPosition (Position_mul (position p) k);
                          OOrientation (orientation p);
                          OPose (length (heap w)) (length (heap w) + 1)]) w).
Proof.
  rewrite new_pose_spec. unfold position_imul. cbn [snd heap set_heap].
  rewrite lookup_app_r by lia.
  replace (length (heap w) + 2 - length (heap w))%nat with 2%nat by lia. cbn [lookup list_lookup].
  rewrite lookup_app_r by lia. rewrite Nat.sub_diag. cbn [lookup list_lookup].
  rewrite insert_app_r_alt by lia. rewrite Nat.sub_diag. reflexivity.
Qed.

Lemma keeps_objects_pose_body {ext : Extern} l :
  preserves keeps_objects (YuMiArm._get_pose_body l).
Proof.
  intros w. unfold YuMiArm._get_pose_body, deepcopy. rewrite !bind_world.
  rewrite (read_pose_world l w). destruct (read_pose l w).1 as [e|p]; [done|].
  pose proof (position_imul_copy p METERS_TO_MM w) as Hmul.
  rewrite new_pose_spec in *. cbn [snd] in Hmul. rewrite !bind_world, Hmul.
  rewrite !bind_world. rewrite read_pose_world.
  match goal with |- context [(read_pose ?c ?w1).1] => destruct (read_pose c w1).1 end;
    unfold keeps_objects; cbn; [by apply prefix_app_r|].
  unfold lift. cbn. by apply prefix_app_r.
Qed.

(** C9 (the caller's pose).  Every per-arm operation that takes a pose
    leaves every object that was in the store as it was, whatever the
    outcome: the body builder scales a deep copy.  In particular the
    caller's pose reads the same after the call. *)
Theorem pose_argument_unchanged {ext : Extern} self pose w :
  let unchanged (w' : World) :=
    heap w `prefix_of` heap w'
    ∧ ∀ p, (read_pose pose w).1 = inr p → (read_pose pose w').1 = inr p in
  (∀ linear relative, unchanged (YuMiArm.goto_pose self pose linear relative w).2)
  ∧ unchanged (YuMiArm.goto_pose_sync self pose w).2
  ∧ unchanged (YuMiArm.set_tool self pose w).2
  ∧ unchanged (YuMiArm.is_pose_reachable self pose w).2
  ∧ unchanged (YuMiArm.ik self pose w).2
  ∧ unchanged (YuMiArm.buffer_add_single self pose w).2.
Proof.
  intros unchanged.
  assert (Hread : ∀ w', heap w `prefix_of` heap w' → unchanged w').
  { intros w' Hpre. split; [done|]. intros p. unfold read_pose.
    destruct Hpre as [ext' ->].
    destruct (heap w !! pose) as [[| |pl ol]|] eqn:Hl; try done.
    rewrite (lookup_app_l_Some _ _ _ _ Hl).
    destruct (heap w !! pl) as [[pos| |]|] eqn:Hp; try done.
    destruct (heap w !! ol) as [[|o|]|] eqn:Ho; try done.
    by rewrite (lookup_app_l_Some _ _ _ _ Hp), (lookup_app_l_Some _ _ _ _ Ho). }
  split; [intros linear relative; apply Hread|];
    [apply (preserves_goto_pose keeps_objects keeps_objects_send
              keeps_objects_pose_body keeps_objects_new_pose)|].
  split; [apply Hread, (preserves_goto_pose_sync keeps_objects keeps_objects_send
                          keeps_objects_pose_body)|].
  split; [apply Hread, (preserves_set_tool keeps_objects keeps_objects_send
                          keeps_objects_pose_body)|].
  split; [apply Hread, (preserves_is_pose_reachable keeps_objects keeps_objects_send
                          keeps_objects_pose_body)|].
  split; [apply Hread, (preserves_ik keeps_objects keeps_objects_send
                          keeps_objects_pose_body)|].
  apply Hread, (preserves_buffer_add_single keeps_objects keeps_objects_send
                  keeps_objects_pose_body).
Qed.

(** C9 on a linear move of the left arm: the target pose reads the same
    after the call, and the store has grown by the scaled copy. *)
Lemma pose_argument_unchanged_witness :
  (read_pose 5 (Scenario.world1 Sample.calm)).1
  = inr (mkPose (mkPosition 0.25 0 0.5) (mkOrientation 0 0 0 1))
  ∧ (read_pose 5 (YuMiArm.goto_pose (ext:=Sample.extern) LEFT 5 true false
                    (Scenario.world1 Sample.calm)).2).1
    = inr (mkPose (mkPosition 0.25 0 0.5) (mkOrientation 0 0 0 1))
  ∧ heap (YuMiArm.goto_pose (ext:=Sample.extern) LEFT 5 true false
            (Scenario.world1 Sample.calm)).2
    = heap (Scenario.world1 Sample.calm)
      ++ [OPosition (mkPosition 250 0 500); OOrientation (mkOrientation 0 0 0 1); OPose 6 7].
Proof.
  split; [reflexivity|]. split; [|vm_compute; reflexivity].
  exact (proj2 (proj1 (pose_argument_unchanged (ext:=Sample.extern) LEFT 5
                         (Scenario.world1 Sample.calm)) true false)
           _ eq_refl).
Defined.

(** ** Recovery and the sockets of a session *)

#[global] Instance same_socket_tuples_preorder : PreOrder same_socket_tuples.
Proof.
  split; [by intros w a | intros w1 w2 w3 H12 H23 a].
  by rewrite H23, H12.
Qed.

Lemma same_robot_tuples {A} (m : M A) :
  preserves same_robot m → preserves same_socket_tuples m.
Proof. intros Hm w a. specialize (Hm w). unfold same_robot, YuMiArm.arm_of in *. by rewrite Hm. Qed.

Lemma same_robot_connect ip port : preserves same_robot (YumiSocket.connect ip port).
Proof. intros w. unfold YumiSocket.connect, same_robot. by repeat case_match. Qed.

Lemma same_robot_close s : preserves same_robot (YumiSocket.close s).
Proof. intros w. unfold YumiSocket.close, same_robot. by repeat case_match. Qed.

Lemma same_robot_rws c : preserves same_robot (RWS.call c).
Proof. intros w. unfold RWS.call, same_robot. by repeat case_match. Qed.

Lemma same_robot_alloc o : preserves same_robot (alloc o).
Proof. by intros w. Qed.

Lemma same_robot_new_pose p : preserves same_robot (new_pose p).
Proof. unfold new_pose. pres; apply same_robot_alloc. Qed.

Lemma same_robot_position_imul l k : preserves same_robot (position_imul l k).
Proof. intros w. unfold position_imul, same_robot. by repeat case_match. Qed.

Lemma same_robot_pose_body {ext : Extern} l :
  preserves same_robot (YuMiArm._get_pose_body l).
Proof.
  unfold YuMiArm._get_pose_body, deepcopy. pres;
    first [ apply same_robot_new_pose | apply same_robot_position_imul
          | apply reads_preserves; [exact _ | apply reads_read_pose] ].
Qed.

(** One socket of a session is replaced: the tuple that [terminate] walks
    is not. *)
Lemma replace_socket_keeps_tuple self (port_of : ArmState → Z)
    (f : nat → ArmState → ArmState) :
  (∀ s a, _sockets (f s a) = _sockets a) →
  preserves same_socket_tuples
    (a ← YuMiArm.get_self self;
     s ← YumiSocket.connect (_ip a) (port_of a);
     YuMiArm.put_self self (f s a)).
Proof.
  intros Hf w. rewrite bind_world. unfold YuMiArm.get_self. cbv beta iota.
  rewrite bind_world.
  pose proof (same_robot_connect (_ip (YuMiArm.arm_of self w))
                (port_of (YuMiArm.arm_of self w)) w) as Hc.
  destruct (YumiSocket.connect _ _ w) as [[e|s] w1]; cbn [snd] in *;
    unfold same_robot in Hc.
  - intros a. unfold YuMiArm.arm_of. by rewrite Hc.
  - intros a. unfold YuMiArm.put_self, modify. cbn [snd].
    unfold YuMiArm.arm_of. destruct self, a; cbn; rewrite ?Hc, ?Hf; done.
Qed.

Lemma replace_socket_then self port_of f (rest : M unit) :
  (∀ s a, _sockets (f s a) = _sockets a) →
  preserves same_socket_tuples rest →
  preserves same_socket_tuples
    (a ← YuMiArm.get_self self;
     s ← YumiSocket.connect (_ip a) (port_of a);
     YuMiArm.put_self self (f s a);; rest).
Proof.
  intros Hf Hrest w.
  assert (Heq : (a ← YuMiArm.get_self self;
                 s ← YumiSocket.connect (_ip a) (port_of a);
                 YuMiArm.put_self self (f s a);; rest) w
                = ((a ← YuMiArm.get_self self;
                    s ← YumiSocket.connect (_ip a) (port_of a);
                    YuMiArm.put_self self (f s a));; rest) w).
  { rewrite !bind_world. unfold YuMiArm.get_self. cbv beta iota.
    by rewrite <- bind_assoc. }
  rewrite Heq.
  apply (preserves_bind same_socket_tuples); [by apply replace_socket_keeps_tuple | done].
Qed.

Lemma same_socket_tuples_reconnect self :
  preserves same_socket_tuples (YuMiArm.reconnect self).
Proof.
  unfold YuMiArm.reconnect.
  apply (preserves_bind same_socket_tuples).
  { apply same_robot_tuples, (preserves_terminate same_robot). apply same_robot_close. }
  intros _.
  apply (replace_socket_then self _port YuMiArm.set_main_socket); [done|].
  apply (replace_socket_then self (λ a, _port a + 2) YuMiArm.set_poses_socket); [done|].
  by apply (replace_socket_keeps_tuple self (λ a, _port a + 4) YuMiArm.set_joints_socket).
Qed.

Lemma same_socket_tuples_recover {ext : Extern} :
  preserves same_socket_tuples YuMi.recover.
Proof.
  apply preserves_recover; try exact _; intros.
  - apply same_robot_tuples, same_robot_send.
  - apply same_robot_tuples, same_robot_pose_body.
  - apply same_robot_tuples, same_robot_new_pose.
  - apply same_robot_tuples, same_robot_schedule.
  - apply same_socket_tuples_reconnect.
  - apply same_robot_tuples, same_robot_rws.
  - by apply same_robot_tuples.
  - by intros w a.
Qed.


(** ** Fields of a wire body *)

Lemma digit_char_digit d :
  0 ≤ d < 10 → is_digit (digit_char d) = true ∧ digit_value (digit_char d) = d.
Proof.
  intros Hd.
  assert (Hcases : d = 0 ∨ d = 1 ∨ d = 2 ∨ d = 3 ∨ d = 4 ∨ d = 5 ∨ d = 6 ∨ d = 7
                   ∨ d = 8 ∨ d = 9) by lia.
  repeat destruct Hcases as [-> | Hcases]; try (by split); subst; by split.
Qed.

Lemma is_digit_not_char a c :
  is_digit a = true → is_digit c = false → Ascii.eqb a c = false.
Proof.
  intros Ha Hc. destruct (Ascii.eqb a c) eqn:E; [|done].
  apply Ascii.eqb_eq in E. congruence.
Qed.

Lemma append_nil_l (s : string) : "" +:+ s = s.
Proof. reflexivity. Qed.

Lemma append_cons a (s t : string) : String a s +:+ t = String a (s +:+ t).
Proof. reflexivity. Qed.

Lemma append_nil_r (s : string) : s +:+ "" = s.
Proof. induction s as [|a s IH]; [done|]. exact (f_equal (String a) IH). Qed.

Lemma append_assoc (a b c : string) : (a +:+ b) +:+ c = a +:+ (b +:+ c).
Proof. induction a as [|x a IH]; [done|]. exact (f_equal (String x) IH). Qed.

Lemma length_append (a b : string) :
  String.length (a +:+ b) = (String.length a + String.length b)%nat.
Proof. induction a as [|x a IH]; [done|]. exact (f_equal S IH). Qed.

Lemma all_digits_app a b :
  all_digits (a +:+ b) = all_digits a && all_digits b.
Proof.
  induction a as [|x a IH]; [done|].
  change (all_digits (String x a +:+ b)) with (is_digit x && all_digits (a +:+ b)).
  rewrite IH. cbn. by destruct (is_digit x).
Qed.

Lemma digits_only_app acc a b :
  digits_only acc (a +:+ b) = digits_only acc a ≫= λ v, digits_only v b.
Proof.
  revert acc. induction a as [|x a IH]; intros acc; [done|].
  change (digits_only acc (String x a +:+ b))
    with (if is_digit x then digits_only (10 * acc + digit_value x) (a +:+ b) else None).
  cbn. destruct (is_digit x); [apply IH | done].
Qed.

Lemma digits_fuel_spec fuel n :
  (0 < fuel)%nat → 0 ≤ n < 2 ^ Z.of_nat fuel →
  all_digits (digits_fuel fuel n) = true
  ∧ digits_fuel fuel n ≠ ""
  ∧ digits_only 0 (digits_fuel fuel n) = Some n.
Proof.
  revert n. induction fuel as [|k IH]; intros n Hfuel Hn; [lia|].
  cbn [digits_fuel]. destruct (n <? 10) eqn:Hten.
  - apply Z.ltb_lt in Hten. destruct (digit_char_digit n) as [Hd Hv]; [lia|].
    cbn. rewrite Hd, Hv. by replace (10 * 0 + n) with n by lia.
  - apply Z.ltb_ge in Hten.
    assert (Hdiv : 1 ≤ n / 10) by (apply Z.div_le_lower_bound; lia).
    assert (Hup : n / 10 < 2 ^ Z.of_nat k).
    { apply Z.div_lt_upper_bound; [lia|].
      rewrite Nat2Z.inj_succ, Z.pow_succ_r in Hn by lia. lia. }
    assert (Hk : (0 < k)%nat).
    { destruct k; [|lia]. cbn in Hup. lia. }
    destruct (IH (n / 10) Hk) as (Hall & Hne & Hval); [lia|].
    destruct (digit_char_digit (n mod 10)) as [Hd Hv];
      [apply Z.mod_pos_bound; lia|].
    split; [|split].
    + rewrite all_digits_app, Hall. cbn. by rewrite Hd.
    + destruct (digits_fuel k (n / 10)); [done | by cbn].
    + rewrite digits_only_app, Hval. cbn. rewrite Hd, Hv. f_equal.
      pose proof (Z.div_mod n 10). lia.
Qed.

Lemma nat_digits_spec n :
  0 ≤ n →
  all_digits (nat_digits n) = true
  ∧ nat_digits n ≠ ""
  ∧ digits_only 0 (nat_digits n) = Some n.
Proof.
  intros Hn. apply digits_fuel_spec; [lia|].
  split; [done|]. rewrite Nat2Z.inj_succ, Z2Nat.id by apply Z.log2_nonneg.
  destruct (Z.eq_dec n 0) as [->|Hnz]; [done|].
  apply Z.log2_spec. lia.
Qed.

Lemma frac_digits_spec p r :
  0 ≤ r < 10 ^ Z.of_nat p →
  all_digits (frac_digits p r) = true
  ∧ String.length (frac_digits p r) = p
  ∧ ∀ acc, digits_only acc (frac_digits p r) = Some (acc * 10 ^ Z.of_nat p + r).
Proof.
  revert r. induction p as [|p IH]; intros r Hr.
  - cbn in *. repeat split. intros acc. f_equal. lia.
  - rewrite Nat2Z.inj_succ, Z.pow_succ_r in Hr by lia.
    destruct (IH (r / 10)) as (Hall & Hlen & Hval).
    { split; [apply Z.div_pos; lia | apply Z.div_lt_upper_bound; lia]. }
    destruct (digit_char_digit (r mod 10)) as [Hd Hv];
      [apply Z.mod_pos_bound; lia|].
    cbn [frac_digits]. split; [|split].
    + rewrite all_digits_app, Hall. cbn. by rewrite Hd.
    + rewrite length_append, Hlen. cbn. lia.
    + intros acc. rewrite digits_only_app, Hval. cbn. rewrite Hd, Hv. f_equal.
      rewrite Nat2Z.inj_succ, Z.pow_succ_r by lia.
      pose proof (Z.div_mod r 10). lia.
Qed.

Lemma rstrip_app chars a b :
  rstrip chars (a +:+ b)
  = match rstrip chars b with
    | EmptyString => rstrip chars a
    | b' => a +:+ b'
    end.
Proof.
  induction a as [|x a IH].
  - rewrite append_nil_l. by destruct (rstrip chars b).
  - rewrite append_cons. cbn [rstrip]. rewrite IH.
    destruct (rstrip chars b) as [|y b']; [done|].
    rewrite !append_cons. by destruct a.
Qed.

Lemma rstrip_digits_dot s : all_digits s = true → rstrip "." s = s.
Proof.
  induction s as [|a s IH]; [done|]. cbn. intros [Ha Hs]%andb_true_iff.
  rewrite IH by done. destruct s; [|done].
  by rewrite (is_digit_not_char a "."), orb_false_r.
Qed.

(** Dropping the zeros at the end of a string of digits divides its value
    by a power of ten. *)
Lemma rstrip_zero_digits s :
  all_digits s = true →
  all_digits (rstrip "0" s) = true
  ∧ (String.length (rstrip "0" s) ≤ String.length s)%nat
  ∧ ∀ acc, digits_only acc s
           = (λ v, v * 10 ^ Z.of_nat (String.length s - String.length (rstrip "0" s)))
             <$> digits_only acc (rstrip "0" s).
Proof.
  induction s as [|a s IH]; intros Hall.
  - split; [done|]. split; [done|]. intros acc.
    change (Some acc = Some (acc * 10 ^ 0)). f_equal. lia.
  - apply andb_true_iff in Hall as [Ha Hs].
    destruct (IH Hs) as (Hall' & Hlen & Hval).
    assert (Hhead : ∀ t acc, digits_only acc (String a t)
                             = digits_only (10 * acc + digit_value a) t).
    { intros t acc. cbn [digits_only]. by rewrite Ha. }
    cbn [rstrip]. destruct (rstrip "0" s) as [|b s'] eqn:Hstrip.
    + cbn [mem_char]. rewrite orb_false_r.
      destruct (Ascii.eqb a "0") eqn:Hzero.
      * apply Ascii.eqb_eq in Hzero. subst a.
        split; [done|]. split; [cbn; lia|]. intros acc.
        rewrite Hhead, Hval.
        change (Some ((10 * acc + 0) * 10 ^ Z.of_nat (String.length s - 0))
                = Some (acc * 10 ^ Z.of_nat (S (String.length s) - 0))).
        f_equal. rewrite !Nat.sub_0_r, Nat2Z.inj_succ, Z.pow_succ_r by lia. lia.
      * split; [cbn; by rewrite Ha|]. split; [cbn; lia|]. intros acc.
        rewrite Hhead, Hval, Hhead. reflexivity.
    + split; [cbn [all_digits] in *; by rewrite Ha|].
      split; [cbn [String.length] in *; lia|]. intros acc.
      rewrite Hhead, Hval, Hhead. reflexivity.
Qed.

Lemma split_on_digits s : all_digits s = true → split_on "." s = [s].
Proof.
  induction s as [|a s IH]; [done|]. intros [Ha Hs]%andb_true_iff.
  cbn [split_on]. by rewrite (is_digit_not_char a "."), IH.
Qed.

Lemma split_on_digits_dot a b :
  all_digits a = true → all_digits b = true →
  split_on "." (a +:+ "." +:+ b) = [a; b].
Proof.
  intros Ha Hb. induction a as [|x a IH].
  - rewrite append_nil_l, append_cons, append_nil_l. cbn [split_on].
    rewrite Ascii.eqb_refl. by rewrite split_on_digits.
  - apply andb_true_iff in Ha as [Hx Ha].
    rewrite append_cons. cbn [split_on].
    by rewrite (is_digit_not_char x "."), IH.
Qed.

Lemma rstrip_keep chars a b :
  rstrip chars b ≠ "" → rstrip chars (a +:+ b) = a +:+ rstrip chars b.
Proof. intros Hb. rewrite rstrip_app. by destruct (rstrip chars b). Qed.

Lemma rstrip_drop chars a b :
  rstrip chars b = "" → rstrip chars (a +:+ b) = rstrip chars a.
Proof. intros Hb. by rewrite rstrip_app, Hb. Qed.

Lemma rstrip_zero_dot f : rstrip "0" ("." +:+ f) = "." +:+ rstrip "0" f.
Proof.
  rewrite !append_cons, !append_nil_l. cbn [rstrip].
  by destruct (rstrip "0" f).
Qed.

Lemma rstrip_dot_digits x i :
  all_digits i = true → i ≠ "" → rstrip "." (x +:+ i) = x +:+ i.
Proof.
  intros Hall Hne. rewrite rstrip_keep; rewrite rstrip_digits_dot; done.
Qed.

(** What the trimming leaves of a fixed-point presentation. *)
Lemma trim_fixed x i f :
  all_digits i = true → i ≠ "" → all_digits f = true →
  trim ((x +:+ i) +:+ ("." +:+ f))
  = if String.eqb (rstrip "0" f) "" then x +:+ i
    else (x +:+ i) +:+ ("." +:+ rstrip "0" f).
Proof.
  intros Hi Hne Hf. unfold trim.
  rewrite (rstrip_keep "0"), rstrip_zero_dot.
  2: { rewrite rstrip_zero_dot. by rewrite append_cons. }
  destruct (rstrip_zero_digits f Hf) as (Hf' & _ & _).
  destruct (rstrip "0" f) as [|c f'] eqn:Hstrip.
  - cbn [String.eqb]. rewrite rstrip_drop by done. by apply rstrip_dot_digits.
  - cbn [String.eqb].
    assert (Hd : rstrip "." ("." +:+ String c f') = "." +:+ String c f').
    { rewrite rstrip_keep; rewrite rstrip_digits_dot; done. }
    rewrite rstrip_keep; rewrite Hd; [done|]. by rewrite append_cons.
Qed.

(** The sign is split from a presentation that starts with a digit. *)
Lemma token_value_sign sg c t :
  is_digit c = true →
  token_value (sign_str sg +:+ String c t) = token_body sg (String c t).
Proof.
  intros Hc. destruct sg; [done|].
  rewrite append_nil_l. unfold token_value.
  destruct c as [[] [] [] [] [] [] [] []]; done.
Qed.

(** The value of a trimmed fixed-point field is the value that was
    printed: [n / 10^k = ± N / 10^p]. *)
Lemma fixed_field_roundtrip (p : nat) (sg : bool) (N : Z) :
  (1 ≤ p)%nat → 0 ≤ N →
  ∃ n k, token_value (trim (sign_str sg +:+ fixed_digits p N)) = Some (n, k)
         ∧ (k ≤ p)%nat
         ∧ n * 10 ^ Z.of_nat (p - k) = if sg then - N else N.
Proof.
  intros Hp HN. unfold fixed_digits. destruct p as [|p']; [lia|].
  remember (S p') as p eqn:Hpeq. remember (10 ^ Z.of_nat p) as t eqn:Hteq.
  assert (Ht : 0 < t) by (subst t; apply Z.pow_pos_nonneg; lia).
  destruct (nat_digits_spec (N / t)) as (HIall & HIne & HIval);
    [apply Z.div_pos; lia|].
  destruct (frac_digits_spec p (N mod t)) as (HFall & HFlen & HFval);
    [subst t; apply Z.mod_pos_bound; lia|].
  remember (nat_digits (N / t)) as I eqn:HIeq.
  remember (frac_digits p (N mod t)) as F eqn:HFeq.
  destruct (rstrip_zero_digits F HFall) as (HF'all & HF'len & HF'val).
  rewrite <- append_assoc, trim_fixed by done.
  remember (rstrip "0" F) as F' eqn:HF'eq.
  specialize (HF'val (N / t)). rewrite HFval in HF'val.
  destruct I as [|c I']; [done|].
  assert (Hc : is_digit c = true) by (by apply andb_true_iff in HIall as [? _]).
  pose proof (Z.div_mod N t) as Hdm.
  destruct (String.eqb F' "") eqn:Hempty.
  - apply String.eqb_eq in Hempty. rewrite Hempty in HF'val.
    exists (if sg then - (N / t) else N / t), O.
    split; [|split; [lia|]].
    + rewrite token_value_sign by done.
      unfold token_body. rewrite split_on_digits by done. cbn [String.eqb].
      by rewrite HIval.
    + injection HF'val as HF'val. rewrite HFlen in HF'val.
      cbn [String.length] in HF'val. rewrite <- Hteq in HF'val.
      rewrite Nat.sub_0_r in *. rewrite <- Hteq. destruct sg; lia.
  - destruct (digits_only (N / t) F') as [v|] eqn:Hv; [|done].
    injection HF'val as HF'val. rewrite HFlen in HF'val. rewrite <- Hteq in HF'val.
    exists (if sg then - v else v), (String.length F').
    split; [|split; [lia | destruct sg; lia]].
    rewrite append_assoc, (append_cons c I'), (token_value_sign sg c _ Hc).
    rewrite <- (append_cons c I').
    unfold token_body. rewrite split_on_digits_dot by done. cbn [String.eqb].
    by rewrite digits_only_app, HIval; cbn [mbind option_bind]; rewrite Hv.
Qed.

(** The value of a presentation ["{:.pf}"] of a finite float, after the
    trimming, is the rounded value that was printed. *)
Lemma format_float_roundtrip (p : nat) (f : float) s m e :
  (1 ≤ p)%nat → Prim2SF f = S754_finite s m e →
  ∃ n k, token_value (trim (format_float p f)) = Some (n, k)
         ∧ (k ≤ p)%nat
         ∧ n * 10 ^ Z.of_nat (p - k)
           = if s then - scaled_round p m e else scaled_round p m e.
Proof.
  intros Hp Hf. unfold format_float. rewrite Hf.
  apply fixed_field_roundtrip; [done|].
  unfold scaled_round. cbv zeta.
  assert (Ht : 0 < 10 ^ Z.of_nat p) by (apply Z.pow_pos_nonneg; lia).
  destruct (0 <=? e) eqn:He.
  - apply Z.leb_le in He. pose proof (Z.pow_pos_nonneg 2 e). nia.
  - apply Z.leb_gt in He.
    assert (Hd : 0 < 2 ^ (- e)) by (apply Z.pow_pos_nonneg; lia).
    unfold div_half_even. cbv zeta.
    assert (Hq : 0 ≤ (Z.pos m * 10 ^ Z.of_nat p) / 2 ^ (- e))
      by (apply Z.div_pos; nia).
    destruct (2 * ((Z.pos m * 10 ^ Z.of_nat p) mod 2 ^ (- e)) ?= 2 ^ (- e));
      [destruct (Z.even _)|..]; lia.
Qed.

(** The rounding is to the nearest: half a unit of the last decimal at
    most. *)
Lemma div_half_even_nearest num den :
  0 < den → Z.abs (2 * (div_half_even num den * den - num)) ≤ den.
Proof.
  intros Hden. unfold div_half_even. cbv zeta.
  pose proof (Z.div_mod num den) as Hdm.
  pose proof (Z.mod_pos_bound num den Hden) as Hr.
  remember (num / den) as q eqn:Hq. remember (num mod den) as r eqn:Hreq.
  assert (Hnum : num = q * den + r) by lia. clear Hdm Hq Hreq. subst num.
  assert (Hdown : q * den - (q * den + r) = - r) by ring.
  assert (Hup : (q + 1) * den - (q * den + r) = den - r) by ring.
  destruct (2 * r ?= den) eqn:Hcmp.
  - apply Z.compare_eq in Hcmp.
    destruct (Z.even q); rewrite ?Hdown, ?Hup; apply Z.abs_le; lia.
  - change (2 * r < den) in Hcmp. rewrite Hdown. apply Z.abs_le. lia.
  - change (2 * r > den) in Hcmp. rewrite Hup. apply Z.abs_le. lia.
Qed.

Lemma digit_nonzero a :
  is_digit a = true → Ascii.eqb a "0" = false → 1 ≤ digit_value a ≤ 9.
Proof. destruct a as [[] [] [] [] [] [] [] []]; cbn; intros; try done; lia. Qed.

(** What is left of a string of digits without its zeros at the end does
    not end with a zero. *)
Lemma rstrip_zero_last s :
  all_digits s = true → rstrip "0" s ≠ "" →
  ∀ acc v, digits_only acc (rstrip "0" s) = Some v → v mod 10 ≠ 0.
Proof.
  induction s as [|a s IH]; intros Hall Hne acc v; [done|].
  apply andb_true_iff in Hall as [Ha Hs].
  revert Hne. cbn [rstrip]. destruct (rstrip "0" s) as [|b s'] eqn:Hstrip.
  - cbn [mem_char]. rewrite orb_false_r.
    destruct (Ascii.eqb a "0") eqn:Hzero; [done|]. intros _.
    cbn [digits_only]. rewrite Ha. intros [= <-].
    pose proof (digit_nonzero a Ha Hzero).
    rewrite Z.add_comm, Z.mul_comm, Z_mod_plus_full, Z.mod_small by lia. lia.
  - intros _. cbn [digits_only]. rewrite Ha. apply IH; done.
Qed.

(** A field written with ["{:d}"] loses the zeros at its end: no multiple
    of ten is read back. *)
Lemma int_field_multiple_of_ten z :
  0 ≤ z → z mod 10 = 0 → token_value (trim (format_int z)) ≠ Some (z, 0%nat).
Proof.
  intros Hz Hten. unfold format_int.
  destruct (z <? 0) eqn:Hneg; [apply Z.ltb_lt in Hneg; lia|].
  destruct (nat_digits_spec z Hz) as (Hall & Hne & Hval).
  destruct (rstrip_zero_digits _ Hall) as (Hall' & _ & Hval').
  unfold trim. rewrite rstrip_digits_dot by done.
  pose proof (rstrip_zero_last _ Hall) as Hlast.
  specialize (Hval' 0). rewrite Hval in Hval'.
  destruct (rstrip "0" (nat_digits z)) as [|c r] eqn:Hstrip; [done|].
  assert (Hc : is_digit c = true) by (by apply andb_true_iff in Hall' as [? _]).
  change (String c r) with (sign_str false +:+ String c r).
  rewrite (token_value_sign false c r Hc).
  unfold token_body. rewrite split_on_digits by done. cbn [String.eqb].
  destruct (digits_only 0 (String c r)) as [v|] eqn:Hv; [|done].
  cbn [mbind option_bind]. intros [= Heq].
  apply (Hlast ltac:(done) 0 v Hv). by rewrite Heq.
Qed.

Lemma scaled_round_nearest p m e :
  Z.abs (2 * (scaled_round p m e * 2 ^ Z.max 0 (- e)
              - Z.pos m * 2 ^ Z.max 0 e * 10 ^ Z.of_nat p))
  ≤ 2 ^ Z.max 0 (- e).
Proof.
  unfold scaled_round. cbv zeta. destruct (0 <=? e) eqn:He.
  - apply Z.leb_le in He. rewrite (Z.max_l 0 (- e)), (Z.max_r 0 e) by lia.
    rewrite Z.pow_0_r, Z.mul_1_r, Z.sub_diag. done.
  - apply Z.leb_gt in He. rewrite (Z.max_r 0 (- e)), (Z.max_l 0 e) by lia.
    rewrite Z.pow_0_r, Z.mul_1_r.
    apply div_half_even_nearest, Z.pow_pos_nonneg; lia.
Qed.

(** C3 (wire-encoding round trip).  The claim does not hold of the code for
    the fields written with ["{:d}"]: the trimming of the zeros at the end
    is applied to them as well, and an integer has no point to stop it.  No
    multiple of ten is read back from its field: [0] becomes the empty
    field, [10] becomes ["1"].  The configuration [[0, 0, 0, 4]], which
    [default_configuration] sets on both arms, is sent as the body
    ["   4 "], where one field is left of four.  The fields written with a
    fixed number [p ≥ 1] of decimals do keep their value: the field of a
    finite float reads [n / 10^k] with [k ≤ p], equal to the nearest
    multiple of [10^-p] of the float that was printed. *)
Theorem integer_fields_lose_trailing_zeros :
  (∀ z, 0 ≤ z → z mod 10 = 0 →
     format TplInt (PyInt z) = inr (format_int z)
     ∧ token_value (trim (format_int z)) ≠ Some (z, 0%nat))
  ∧ (∀ p f s m e, (1 ≤ p)%nat → Prim2SF f = S754_finite s m e →
       format (TplFixed p) (PyFloat f) = inr (format_float p f)
       ∧ ∃ n k, token_value (trim (format_float p f)) = Some (n, k)
                ∧ (k ≤ p)%nat
                ∧ n * 10 ^ Z.of_nat (p - k)
                  = (if s then - scaled_round p m e else scaled_round p m e)
                ∧ Z.abs (2 * (scaled_round p m e * 2 ^ Z.max 0 (- e)
                              - Z.pos m * 2 ^ Z.max 0 e * 10 ^ Z.of_nat p))
                  ≤ 2 ^ Z.max 0 (- e))
  ∧ format TplInt (PyInt 0) = inr "0" ∧ trim "0" = "" ∧ token_value "" = None
  ∧ format TplInt (PyInt 10) = inr "10" ∧ trim "10" = "1"
  ∧ token_value "1" = Some (1, 0%nat)
  ∧ _iter_to_str TplInt [PyInt 0; PyInt 0; PyInt 0; PyInt 4] = inr "   4 "
  ∧ split_ws "   4 " = ["4"]
  ∧ trace (YuMiArm.set_conf LEFT [PyInt 0; PyInt 0; PyInt 0; PyInt 4]
             (Sample.world0 Sample.calm)).2
    = [EvSend 0 "10    4 #"].
Proof.
  split; [|split].
  - intros z Hz Hten. split; [done|]. by apply int_field_multiple_of_ten.
  - intros p f s m e Hp Hf. split; [done|].
    destruct (format_float_roundtrip p f s m e Hp Hf) as (n & k & Hv & Hk & Hn).
    exists n, k. repeat split; try done. apply scaled_round_nearest.
  - repeat split; vm_compute; reflexivity.
Qed.

Lemma integer_fields_lose_trailing_zeros_witness :
  (0 ≤ 10 ∧ 10 mod 10 = 0
   ∧ token_value (trim (format_int 10)) ≠ Some (10, 0%nat))
  ∧ ((1 ≤ 2)%nat
     ∧ Prim2SF 0.125 = S754_finite false 4503599627370496 (-55)
     ∧ ∃ n k, token_value (trim (format_float 2 0.125)) = Some (n, k)
              ∧ (k ≤ 2)%nat
              ∧ n * 10 ^ Z.of_nat (2 - k) = scaled_round 2 4503599627370496 (-55)).
Proof.
  split.
  - split; [lia|]. split; [reflexivity|].
    exact (proj2 (proj1 integer_fields_lose_trailing_zeros 10 ltac:(lia) eq_refl)).
  - split; [lia|]. split; [reflexivity|].
    destruct (proj2 (proj1 (proj2 integer_fields_lose_trailing_zeros)
                       2%nat 0.125%float false 4503599627370496%positive (-55)
                       ltac:(lia) eq_refl))
      as (n & k & Hv & Hk & Hn & _).
    exists n, k. split; [exact Hv|]. split; [exact Hk | exact Hn].
Defined.

(** * Further properties of the driver *)

(** ** Integers on the wire *)

Lemma digit_not_space a : is_digit a = true → is_space a = false.
Proof. destruct a as [[] [] [] [] [] [] [] []]; done. Qed.

Lemma all_digits_no_space s : all_digits s = true → no_space s = true.
Proof.
  induction s as [|a s IH]; [done|]. intros [Ha Hs]%andb_true_iff.
  cbn [no_space]. by rewrite (digit_not_space a Ha), IH.
Qed.

Lemma rstrip_ws_no_space s : no_space s = true → rstrip_ws s = s.
Proof.
  induction s as [|a s IH]; [done|]. intros [Ha Hs]%andb_true_iff.
  cbn [rstrip_ws]. rewrite IH by done. apply negb_true_iff in Ha.
  destruct s; [by rewrite Ha | done].
Qed.

Lemma lstrip_ws_no_space s : no_space s = true → lstrip_ws s = s.
Proof.
  destruct s as [|a s]; [done|]. intros [Ha Hs]%andb_true_iff.
  apply negb_true_iff in Ha. cbn [lstrip_ws]. by rewrite Ha.
Qed.

Lemma strip_ws_no_space s : no_space s = true → strip_ws s = s.
Proof.
  intros Hs. unfold strip_ws. by rewrite lstrip_ws_no_space, rstrip_ws_no_space.
Qed.

Lemma digits_value_digits acc s :
  all_digits s = true → digits_value acc true s = digits_only acc s.
Proof.
  revert acc. induction s as [|a s IH]; intros acc; [done|].
  intros [Ha Hs]%andb_true_iff. cbn [digits_value digits_only]. rewrite Ha. by apply IH.
Qed.

Lemma digits_value_start acc s :
  all_digits s = true → s ≠ "" → digits_value acc false s = digits_only acc s.
Proof.
  destruct s as [|a s]; [done|]. intros [Ha Hs]%andb_true_iff _.
  cbn [digits_value digits_only]. rewrite Ha. by apply digits_value_digits.
Qed.

Lemma py_int_digits s n :
  all_digits s = true → s ≠ "" → digits_only 0 s = Some n → py_int s = Some n.
Proof.
  intros Hall Hne Hval. unfold py_int.
  rewrite strip_ws_no_space by by apply all_digits_no_space.
  destruct s as [|a t]; [done|].
  assert (Ha : is_digit a = true) by (by apply andb_true_iff in Hall as [? _]).
  rewrite <- Hval, <- (digits_value_start 0 (String a t)) by done.
  destruct a as [[] [] [] [] [] [] [] []]; done.
Qed.

Lemma py_int_minus_digits s n :
  all_digits s = true → s ≠ "" → digits_only 0 s = Some n →
  py_int (String "-" s) = Some (- n).
Proof.
  intros Hall Hne Hval. unfold py_int.
  rewrite strip_ws_no_space.
  2: { cbn [no_space]. by rewrite all_digits_no_space. }
  by rewrite digits_value_start, Hval.
Qed.

Lemma py_int_format_int n : py_int (format_int n) = Some n.
Proof.
  unfold format_int. destruct (n <? 0) eqn:Hneg.
  - apply Z.ltb_lt in Hneg.
    destruct (nat_digits_spec (- n)) as (Hall & Hne & Hval); [lia|].
    rewrite append_cons, append_nil_l.
    rewrite (py_int_minus_digits _ (- n)) by done. f_equal. lia.
  - apply Z.ltb_ge in Hneg.
    destruct (nat_digits_spec n Hneg) as (Hall & Hne & Hval).
    by apply py_int_digits.
Qed.

(** ** Framing of requests *)

Lemma format_int_inj a b : format_int a = format_int b → a = b.
Proof.
  intros Heq. pose proof (py_int_format_int a) as Ha.
  rewrite Heq, py_int_format_int in Ha. by injection Ha.
Qed.

Lemma format_int_no_space n : no_space (format_int n) = true.
Proof.
  unfold format_int. destruct (n <? 0) eqn:Hneg.
  - apply Z.ltb_lt in Hneg.
    destruct (nat_digits_spec (- n)) as (Hall & _ & _); [lia|].
    rewrite append_cons, append_nil_l. cbn [no_space].
    by rewrite all_digits_no_space.
  - apply Z.ltb_ge in Hneg.
    destruct (nat_digits_spec n Hneg) as (Hall & _ & _).
    by apply all_digits_no_space.
Qed.

(** Two strings without white space, each followed by a space, start the
    same string only if they are equal. *)
Lemma space_split_inj s1 s2 r1 r2 :
  no_space s1 = true → no_space s2 = true →
  s1 +:+ " " +:+ r1 = s2 +:+ " " +:+ r2 → s1 = s2 ∧ r1 = r2.
Proof.
  revert s2. induction s1 as [|a s1 IH]; intros [|b s2] H1 H2 Heq.
  - rewrite !append_nil_l in Heq. by injection Heq.
  - rewrite append_nil_l, !append_cons in Heq. injection Heq as Hb _.
    subst b. cbn in H2. done.
  - rewrite append_nil_l, !append_cons in Heq. injection Heq as Ha _.
    subst a. cbn in H1. done.
  - rewrite !append_cons in Heq. injection Heq as -> Heq.
    apply andb_true_iff in H1 as [_ H1]. apply andb_true_iff in H2 as [_ H2].
    destruct (IH s2 H1 H2 Heq) as [-> ->]. done.
Qed.

Lemma append_inj_r (a b c : string) : a +:+ c = b +:+ c → a = b.
Proof.
  intros Heq.
  assert (Hlen : String.length a = String.length b).
  { apply (f_equal String.length) in Heq. rewrite !length_append in Heq. lia. }
  revert b Heq Hlen. induction a as [|x a IH]; intros [|y b] Heq Hlen; try done.
  rewrite !append_cons in Heq. injection Heq as -> Heq.
  f_equal. apply IH; [done|]. cbn in Hlen. lia.
Qed.

Lemma cmd_value_inj c c' : CmdCodes.value c = CmdCodes.value c' → c = c'.
Proof. destruct c, c'; intros H; try reflexivity; discriminate H. Qed.

Lemma construct_req_inj c b c' b' :
  _construct_req c b = _construct_req c' b' → c = c' ∧ b = b'.
Proof.
  unfold _construct_req. intros Heq.
  apply space_split_inj in Heq as [Hc Hb]; try apply format_int_no_space.
  split; [by apply cmd_value_inj, format_int_inj|].
  by apply append_inj_r in Hb.
Qed.

(** ** Fields and tokens *)

Lemma split_ws_space rest : split_ws (" " +:+ rest) = split_ws rest.
Proof. reflexivity. Qed.

Lemma split_ws_token_space tok rest :
  is_token tok → split_ws (tok +:+ " " +:+ rest) = tok :: split_ws rest.
Proof.
  intros [Hne Hns]. induction tok as [|a tok IH]; [done|].
  apply andb_true_iff in Hns as [Ha Hns]. apply negb_true_iff in Ha.
  rewrite append_cons. cbn [split_ws]. rewrite Ha.
  destruct tok as [|b tok].
  - rewrite append_nil_l, append_cons, append_nil_l. cbn [is_space nat_of_ascii].
    reflexivity.
  - rewrite IH by done. rewrite append_cons.
    apply andb_true_iff in Hns as [Hb _]. apply negb_true_iff in Hb.
    by rewrite Hb.
Qed.

Lemma split_ws_token tok : is_token tok → split_ws tok = [tok].
Proof.
  intros [Hne Hns]. induction tok as [|a tok IH]; [done|].
  apply andb_true_iff in Hns as [Ha Hns]. apply negb_true_iff in Ha.
  cbn [split_ws]. rewrite Ha. destruct tok as [|b tok]; [done|].
  rewrite IH by done.
  apply andb_true_iff in Hns as [Hb _]. apply negb_true_iff in Hb.
  by rewrite Hb.
Qed.

(** The parts that [str.split()] returns have no white space and are not
    empty. *)
Lemma split_ws_tokens s : Forall is_token (split_ws s).
Proof.
  induction s as [|a s IH]; [constructor|].
  cbn [split_ws]. destruct (is_space a) eqn:Ha; [done|].
  assert (Hone : is_token (String a "")).
  { split; [done|]. cbn. by rewrite Ha. }
  destruct s as [|b s]; [by constructor|].
  destruct (is_space b) eqn:Hb; [by constructor|].
  destruct (split_ws (String b s)) as [|h r]; [by constructor|].
  inversion IH as [|? ? [Hh1 Hh2] Hr]; subst.
  constructor; [|done]. split; [done|]. cbn [no_space]. by rewrite Ha, Hh2.
Qed.

Lemma split_ws_join toks :
  Forall is_token toks → split_ws (join " " toks) = toks.
Proof.
  induction 1 as [|tok toks Htok Htoks IH]; [done|].
  destruct toks as [|tok' toks].
  - by apply split_ws_token.
  - change (join " " (tok :: tok' :: toks)) with (tok +:+ " " +:+ join " " (tok' :: toks)).
    by rewrite split_ws_token_space, IH.
Qed.

Lemma no_space_app a b : no_space (a +:+ b) = no_space a && no_space b.
Proof.
  induction a as [|x a IH]; [done|].
  rewrite append_cons. cbn [no_space]. rewrite IH. by destruct (is_space x).
Qed.

Lemma scaled_round_nonneg p m e : 0 ≤ scaled_round p m e.
Proof.
  unfold scaled_round. cbv zeta.
  assert (Ht : 0 < 10 ^ Z.of_nat p) by (apply Z.pow_pos_nonneg; lia).
  destruct (0 <=? e) eqn:He.
  - apply Z.leb_le in He. pose proof (Z.pow_pos_nonneg 2 e). nia.
  - apply Z.leb_gt in He.
    assert (Hd : 0 < 2 ^ (- e)) by (apply Z.pow_pos_nonneg; lia).
    unfold div_half_even. cbv zeta.
    assert (Hq : 0 ≤ (Z.pos m * 10 ^ Z.of_nat p) / 2 ^ (- e))
      by (apply Z.div_pos; nia).
    destruct (2 * ((Z.pos m * 10 ^ Z.of_nat p) mod 2 ^ (- e)) ?= 2 ^ (- e));
      [destruct (Z.even _)|..]; lia.
Qed.

Lemma fixed_field_token p sg N :
  (1 ≤ p)%nat → 0 ≤ N → is_token (trim (sign_str sg +:+ fixed_digits p N)).
Proof.
  intros Hp HN. unfold fixed_digits. destruct p as [|p']; [lia|].
  remember (S p') as p eqn:Hpeq. remember (10 ^ Z.of_nat p) as t eqn:Hteq.
  assert (Ht : 0 < t) by (subst t; apply Z.pow_pos_nonneg; lia).
  destruct (nat_digits_spec (N / t)) as (HIall & HIne & _);
    [apply Z.div_pos; lia|].
  destruct (frac_digits_spec p (N mod t)) as (HFall & _ & _);
    [subst t; apply Z.mod_pos_bound; lia|].
  destruct (rstrip_zero_digits _ HFall) as (HF'all & _ & _).
  rewrite <- append_assoc, trim_fixed by done.
  assert (Hsign : no_space (sign_str sg) = true) by (by destruct sg).
  assert (Hhead : is_token (sign_str sg +:+ nat_digits (N / t))).
  { split.
    - destruct sg; [done|]. by rewrite append_nil_l.
    - by rewrite no_space_app, Hsign, all_digits_no_space. }
  destruct (String.eqb _ ""); [done|].
  destruct Hhead as [Hne Hns]. split.
  - destruct (sign_str sg +:+ nat_digits (N / t)); done.
  - by rewrite no_space_app, Hns, no_space_app, (all_digits_no_space _ HF'all).
Qed.

Lemma format_float_token p f : (1 ≤ p)%nat → is_token (trim (format_float p f)).
Proof.
  intros Hp. unfold format_float. destruct (Prim2SF f) as [s|s| |s m e].
  - by apply fixed_field_token.
  - destruct s; split; done.
  - split; done.
  - apply fixed_field_token; [done | apply scaled_round_nonneg].
Qed.

Lemma format_fixed_token p v s :
  (1 ≤ p)%nat → format (TplFixed p) v = inr s → is_token (trim s).
Proof.
  intros Hp. unfold format. destruct (to_float v) as [e|f]; [done|].
  intros [= <-]. by apply format_float_token.
Qed.

Lemma iter_to_str_from_split p vals result body :
  (1 ≤ p)%nat →
  _iter_to_str_from result (TplFixed p) vals = inr body →
  ∃ fields tail, mapM (format (TplFixed p)) vals = inr fields
                 ∧ body = result +:+ tail
                 ∧ split_ws tail = trim <$> fields.
Proof.
  intros Hp. revert result. induction vals as [|v vals IH]; intros result Hbody.
  - injection Hbody as <-. exists [], "". by rewrite append_nil_r.
  - cbn [_iter_to_str_from] in Hbody. rewrite mapM_cons.
    destruct (format (TplFixed p) v) as [e|s] eqn:Hs; [done|].
    destruct (IH _ Hbody) as (fields & tail & Hfields & -> & Htail).
    rewrite Hfields. exists (s :: fields), (trim s +:+ " " +:+ tail).
    split; [done|]. split; [by rewrite !append_assoc|].
    rewrite split_ws_token_space by by eapply format_fixed_token.
    by rewrite Htail.
Qed.

Lemma parse_response_tokens recv res :
  YumiSocket.parse_response recv = inr res →
  ∃ t0 t1 rest, split_ws recv = t0 :: t1 :: rest
                ∧ py_int t0 = Some (mirror_code res)
                ∧ py_int t1 = Some (res_code res)
                ∧ split_ws (message res) = rest.
Proof.
  unfold YumiSocket.parse_response. destruct (String.eqb recv ""); [done|].
  pose proof (split_ws_tokens recv) as Htok.
  destruct (split_ws recv) as [|t0 [|t1 rest]]; [done| |].
  - cbn. by destruct (py_int t0).
  - cbn. destruct (py_int t0) as [m|] eqn:H0; [|done].
    destruct (py_int t1) as [r|] eqn:H1; [|done].
    intros [= <-]. exists t0, t1, rest. repeat split; try done.
    cbn [message]. apply split_ws_join.
    apply Forall_cons_1 in Htok as [_ Htok]. by apply Forall_cons_1 in Htok as [_ Htok].
Qed.

(** ** Joint lists *)

Lemma mapM_Forall_inr {A B} (f : A → Exc + B) l :
  Forall (λ a, ∃ b, f a = inr b) l → ∃ k, mapM f l = inr k.
Proof.
  induction 1 as [|a l [b Hb] _ [k Hk]]; [by exists []|].
  exists (b :: k). by rewrite mapM_cons, Hb, Hk.
Qed.

Lemma name0_length a side : YuMiArm.name0 a = inr side → String.length side = 1%nat.
Proof. unfold YuMiArm.name0. destruct (arm_name a); [done|]. by intros [= <-]. Qed.

Lemma check_joint_complete a side j :
  YuMiArm.name0 a = inr side → valid_joint_name side j → YuMiArm.check_joint a j = inr tt.
Proof.
  intros Hside (s & i & Hsplit & Hint & Hi). unfold YuMiArm.check_joint.
  rewrite Hsplit. cbn [lookup list_lookup]. rewrite Hint.
  cbn [mbind Exc_bind length]. rewrite !bool_decide_eq_true_2 by done.
  change (Z.of_nat YuMiArm.JOINTS) with 7.
  replace (0 <? i) with true by (symmetry; apply Z.ltb_lt; lia).
  replace (i <=? 7) with true by (symmetry; apply Z.leb_le; lia).
  cbn [negb orb andb Nat.eqb default id]. rewrite (name0_length a side Hside).
  cbn [Nat.eqb negb]. rewrite Hside. cbn [mbind Exc_bind].
  by rewrite String.eqb_refl.
Qed.

Lemma joint_index_valid side j :
  valid_joint_name side j → ∃ i, YuMiArm.joint_index j = inr i ∧ 1 ≤ i ≤ 7.
Proof.
  intros (s & i & Hsplit & Hint & Hi). exists i. split; [|done].
  unfold YuMiArm.joint_index. rewrite Hsplit. cbn [lookup list_lookup]. by rewrite Hint.
Qed.

Lemma check_and_sort_complete self joints side w :
  length joints = YuMiArm.JOINTS →
  YuMiArm.name0 (YuMiArm.arm_of self w) = inr side →
  Forall (valid_joint_name side) joints →
  ∃ sorted, YuMiArm._check_and_sort_joints self joints w = (inr sorted, w).
Proof.
  intros Hlen Hside Hvalid. unfold YuMiArm._check_and_sort_joints.
  rewrite bind_world. unfold YuMiArm.get_self at 1. cbv beta iota.
  rewrite Hlen, Nat.eqb_refl. cbn [negb].
  destruct (mapM_Forall_inr (YuMiArm.check_joint (YuMiArm.arm_of self w)) joints)
    as [units Hunits].
  { eapply Forall_impl; [exact Hvalid|]. intros j Hj. exists tt.
    by eapply check_joint_complete. }
  destruct (mapM_Forall_inr YuMiArm.joint_index joints) as [keys Hkeys].
  { eapply Forall_impl; [exact Hvalid|]. intros j Hj.
    destruct (joint_index_valid side j Hj) as (i & Hi & _). by exists i. }
  rewrite bind_world, Hunits. unfold lift at 1. cbv beta iota.
  unfold YuMiArm.sort_joints. rewrite Hkeys. cbn [mbind Exc_bind].
  by eexists.
Qed.

(** A list in the order of its keys is left as it is. *)
Lemma sort_keyed_sorted_id l : StronglySorted key_le l → YuMiArm.sort_keyed l = l.
Proof.
  induction 1 as [|[k j] l Hl IH Hk]; [done|].
  change (YuMiArm.sort_keyed ((k, j) :: l))
    with (YuMiArm.insert_keyed k j (YuMiArm.sort_keyed l)).
  rewrite IH. destruct l as [|[k' j'] l']; [done|].
  cbn [YuMiArm.insert_keyed].
  apply Forall_cons_1 in Hk as [Hk _]. unfold key_le in Hk. cbn in Hk.
  by replace (k <=? k') with true by (symmetry; apply Z.leb_le; lia).
Qed.

Lemma split_on_free c s : mem_char c s = false → split_on c s = [s].
Proof.
  induction s as [|a s IH]; [done|]. cbn [mem_char].
  intros [Ha Hs]%orb_false_iff. cbn [split_on].
  rewrite Ascii.eqb_sym, Ha. by rewrite IH.
Qed.

Lemma split_on_sep c a b :
  mem_char c a = false → split_on c (a +:+ String c b) = a :: split_on c b.
Proof.
  induction a as [|x a IH].
  - intros _. rewrite append_nil_l. cbn [split_on]. by rewrite Ascii.eqb_refl.
  - cbn [mem_char]. intros [Hx Ha]%orb_false_iff.
    rewrite append_cons. cbn [split_on]. rewrite Ascii.eqb_sym, Hx. by rewrite IH.
Qed.

Lemma all_digits_lacks s c : all_digits s = true → is_digit c = false → mem_char c s = false.
Proof.
  intros Hall Hc. induction s as [|a s IH]; [done|].
  apply andb_true_iff in Hall as [Ha Hs]. cbn [mem_char].
  rewrite IH by done. rewrite Ascii.eqb_sym, (is_digit_not_char a c) by done. done.
Qed.

Lemma joint_name_split i side :
  mem_char "_" side = false →
  split_on "_" (YuMiArm.joint_name i side)
  = ["yumi"; "joint"; format_int (Z.of_nat i + 1); side].
Proof.
  intros Hside. unfold YuMiArm.joint_name.
  change ("yumi_joint_" +:+ format_int (Z.of_nat i + 1) +:+ "_" +:+ side)
    with ("yumi" +:+ String "_" ("joint" +:+ String "_"
            (format_int (Z.of_nat i + 1) +:+ String "_" side))).
  rewrite !split_on_sep; try done.
  - by rewrite split_on_free.
  - unfold format_int. replace (Z.of_nat i + 1 <? 0) with false
      by (symmetry; apply Z.ltb_ge; lia).
    destruct (nat_digits_spec (Z.of_nat i + 1)) as (Hall & _ & _); [lia|].
    by apply all_digits_lacks.
Qed.

Lemma joint_name_valid i c v :
  (i < YuMiArm.JOINTS)%nat → Ascii.eqb "_" c = false →
  valid_joint_name (String c "") (mkJoint (YuMiArm.joint_name i (String c "")) v)
  ∧ YuMiArm.joint_index (mkJoint (YuMiArm.joint_name i (String c "")) v)
    = inr (Z.of_nat i + 1).
Proof.
  intros Hi Hc. unfold YuMiArm.JOINTS in Hi.
  assert (Hside : mem_char "_" (String c "") = false) by (cbn [mem_char]; by rewrite Hc).
  pose proof (joint_name_split i _ Hside) as Hsplit. split.
  - exists (format_int (Z.of_nat i + 1)), (Z.of_nat i + 1).
    split; [done|]. split; [apply py_int_format_int | lia].
  - unfold YuMiArm.joint_index. cbn [name]. rewrite Hsplit. cbn [lookup list_lookup].
    by rewrite py_int_format_int.
Qed.

Section Joints.
Context {ext : Extern}.

Lemma response_to_joints_inr self res w joints w' :
  YuMiArm._response_to_joints self res w = (inr joints, w') →
  w' = w
  ∧ ∃ vals side,
      floats_of_tokens (split_ws (message res)) = inr vals
      ∧ length vals = YuMiArm.JOINTS
      ∧ YuMiArm.name0 (YuMiArm.arm_of self w) = inr side
      ∧ joints = imap (λ i v, mkJoint (YuMiArm.joint_name i side) v) (radians <$> vals).
Proof.
  unfold YuMiArm._response_to_joints. rewrite bind_world.
  unfold YuMiArm.get_self at 1. cbv beta iota zeta.
  destruct (length (split_ws (message res)) =? YuMiArm.JOINTS)%nat eqn:Hlen; [|done].
  cbn [negb]. rewrite bind_world. unfold lift at 1. cbv beta iota.
  destruct (floats_of_tokens _) as [e|vals] eqn:Hvals; [done|].
  rewrite assert_bind. destruct (negb _); [|done].
  rewrite bind_world. unfold lift at 1. cbv beta iota.
  destruct (YuMiArm.name0 _) as [e|side] eqn:Hside; [done|].
  intros [= <- <-]. split; [done|]. exists vals, side.
  repeat split; try done.
  apply Nat.eqb_eq in Hlen. rewrite <- Hlen.
  unfold floats_of_tokens in Hvals. apply mapM_inr_Forall2 in Hvals.
  symmetry. by eapply Forall2_length.
Qed.

Lemma response_joints_accepted self res w joints w' :
  YuMiArm._response_to_joints self res w = (inr joints, w') →
  YuMiArm.name0 (YuMiArm.arm_of self w) ≠ inr "_" →
  YuMiArm._check_and_sort_joints self joints w = (inr joints, w)
  ∧ YuMiArm.joint_names self w = (inr (name <$> joints), w).
Proof.
  intros Hres Hname.
  destruct (response_to_joints_inr _ _ _ _ _ Hres)
    as (-> & vals & side & _ & Hlen & Hside & ->).
  assert (Hc : ∃ c, side = String c "" ∧ Ascii.eqb "_" c = false).
  { unfold YuMiArm.name0 in *. destruct (arm_name _) as [|c t]; [done|].
    injection Hside as <-. exists c. split; [done|].
    destruct (Ascii.eqb "_" c) eqn:E; [|done].
    apply Ascii.eqb_eq in E. by subst c. }
  destruct Hc as (c & -> & Hc).
  do 8 (destruct vals as [|? vals]; try done). clear Hlen.
  cbn [fmap list_fmap imap]. cbv [compose].
  split.
  - unfold YuMiArm._check_and_sort_joints. rewrite bind_world.
    unfold YuMiArm.get_self at 1. cbv beta iota.
    cbn [length Nat.eqb YuMiArm.JOINTS negb].
    rewrite bind_world. unfold lift at 1.
    assert (Hcheck : ∀ i v, (i < 7)%nat →
              YuMiArm.check_joint (YuMiArm.arm_of self w)
                (mkJoint (YuMiArm.joint_name i (String c "")) v) = inr tt).
    { intros i v Hi. apply (check_joint_complete _ (String c "")); [done|].
      by apply joint_name_valid. }
    assert (Hindex : ∀ i v, (i < 7)%nat →
              YuMiArm.joint_index (mkJoint (YuMiArm.joint_name i (String c "")) v)
              = inr (Z.of_nat i + 1)).
    { intros i v Hi. by apply joint_name_valid. }
    rewrite !mapM_cons, !Hcheck by lia.
    cbn [mapM]. cbv beta iota. unfold lift, YuMiArm.sort_joints.
    rewrite !mapM_cons, !Hindex by lia.
    cbn [mapM mbind Exc_bind mret Exc_ret zip zip_with].
    rewrite sort_keyed_sorted_id; [done|].
    repeat (constructor; [|repeat (constructor; [unfold key_le; cbn; lia|]); constructor]).
    constructor.
  - unfold YuMiArm.joint_names. rewrite bind_world.
    unfold YuMiArm.get_self at 1. cbv beta iota.
    rewrite assert_bind.
    assert (Hne : negb (String.eqb (arm_name (YuMiArm.arm_of self w)) "") = true).
    { unfold YuMiArm.name0 in Hside. by destruct (arm_name _). }
    rewrite Hne, bind_world, Hside. reflexivity.
Qed.

End Joints.

(** ** Waiting for futures *)

Lemma as_completed_inr futures seen order :
  YuMi.as_completed futures seen order = inr tt →
  NoDup seen →
  (∀ i, i ∈ seen → ∃ u, futures !! i = Some (Some (inr u))) →
  ∀ i, (i < length futures)%nat → ∃ u, futures !! i = Some (Some (inr u)).
Proof.
  revert seen. induction order as [|j order IH]; intros seen Hres Hnd Hseen.
  - cbn [YuMi.as_completed] in Hres.
    destruct (length seen =? length futures)%nat eqn:Hlen; [|done].
    apply Nat.eqb_eq in Hlen. intros i Hi. apply Hseen.
    assert (Hsub : seen ⊆+ seq 0 (length futures)).
    { apply NoDup_submseteq; [done|]. intros k Hk.
      destruct (Hseen k Hk) as [u Hu]. apply lookup_lt_Some in Hu.
      apply elem_of_seq. lia. }
    assert (Hperm : seen ≡ₚ seq 0 (length futures)).
    { apply submseteq_length_Permutation; [done|]. rewrite length_seq. lia. }
    rewrite Hperm. apply elem_of_seq. lia.
  - cbn [YuMi.as_completed] in Hres.
    destruct (bool_decide (j ∈ seen)) eqn:Hj; [by apply (IH seen)|].
    apply bool_decide_eq_false in Hj.
    destruct (futures !! j) as [[[e|u]|]|] eqn:Hfj; try done;
      try by apply (IH seen).
    apply (IH (j :: seen)); [done | by constructor |].
    intros k [->|Hk]%elem_of_cons; [by exists u | by apply Hseen].
Qed.

Lemma wait_for_all_inr futures timeout msg w w' :
  YuMi.wait_for_all futures timeout msg w = (inr tt, w') →
  Forall (λ f, f = inr tt) futures.
Proof.
  unfold YuMi.wait_for_all. rewrite bind_world.
  unfold YuMi.next_schedule at 1. cbv beta iota.
  destruct (YuMi.as_completed _ _ _) as [e|[]] eqn:Hres.
  { by destruct e. }
  intros _. apply Forall_lookup. intros i f Hf.
  destruct (as_completed_inr _ _ _ Hres (NoDup_nil_2) ltac:(by intros ? ?%elem_of_nil) i)
    as [u Hu].
  { rewrite length_fmap. by eapply lookup_lt_Some. }
  rewrite list_lookup_fmap, Hf in Hu. injection Hu as ->. by destruct u.
Qed.

Lemma as_completed_inl futures seen order e :
  YuMi.as_completed futures seen order = inl e →
  e = TimeoutError ∨ Some (inl e) ∈ futures.
Proof.
  revert seen. induction order as [|j order IH]; intros seen Hres.
  - cbn [YuMi.as_completed] in Hres. destruct (_ =? _)%nat; [done|].
    left. by injection Hres.
  - cbn [YuMi.as_completed] in Hres.
    destruct (bool_decide (j ∈ seen)); [by apply (IH seen)|].
    destruct (futures !! j) as [[[e'|u]|]|] eqn:Hfj; try by eapply IH.
    injection Hres as ->. right. by eapply list_elem_of_lookup_2.
Qed.

Lemma bind_inr {A B} (m : M A) (f : A → M B) w b w' :
  (m ≫= f) w = (inr b, w') → ∃ a w1, m w = (inr a, w1) ∧ f a w1 = (inr b, w').
Proof.
  rewrite bind_world. destruct (m w) as [[e|a] w1]; [done|]. by exists a, w1.
Qed.

Lemma with_move_lock_inr {A} (body : M A) w a w' :
  with_move_lock body w = (inr a, w') →
  move_lock w = false ∧ ∃ w1, body (acquired w) = (inr a, w1).
Proof.
  unfold with_move_lock. destruct (move_lock w); [done|].
  fold (acquired w). destruct (body (acquired w)) as [r w1].
  intros [= -> <-]. split; [done|]. by exists w1.
Qed.

Section Both.
Context {ext : Extern}.

Lemma move_both_arms_raises left_pose right_pose speed w :
  (YuMi.move_both_arms left_pose right_pose speed w).1 ≠ inr tt.
Proof.
  destruct (YuMi.move_both_arms left_pose right_pose speed w) as [[e|[]] w'] eqn:Hrun;
    [done|]. exfalso. revert Hrun.
  unfold YuMi.move_both_arms. rewrite assert_bind. destruct (_ && _); [|done].
  intros (r & w1 & _ & Hrun)%bind_inr.
  apply bind_inr in Hrun as (n & w2 & _ & Hrun).
  apply bind_inr in Hrun as (? & w3 & _ & Hrun).
  apply with_move_lock_inr in Hrun as (_ & w4 & Hrun).
  apply bind_inr in Hrun as (? & w5 & _ & Hrun).
  apply bind_inr in Hrun as (? & w6 & _ & Hrun).
  apply bind_inr in Hrun as (rel_l & w7 & _ & Hrun).
  apply bind_inr in Hrun as (f1 & w8 & _ & Hrun).
  apply bind_inr in Hrun as (rel_r & w9 & _ & Hrun).
  apply bind_inr in Hrun as (f2 & w10 & _ & Hrun).
  apply bind_inr in Hrun as (s & w11 & _ & Hrun).
  destruct (YuMi.as_completed _ _ _) as [e|[]] eqn:Hres.
  - destruct (is_YumiException e).
    { by apply bind_inr in Hrun as (? & ? & _ & ?). }
    destruct (is_ProgramStopped e); [|done].
    by apply bind_inr in Hrun as (? & ? & _ & ?).
  - destruct (as_completed_inr _ _ _ Hres (NoDup_nil_2)
                ltac:(by intros ? ?%elem_of_nil) 0%nat) as [u Hu]; [cbn; lia|].
    cbn in Hu. by destruct (sup_failure s).
Qed.

End Both.
